(** * Typed views over CUDA device memory (modules/cuda/src/buffer.ts)

    A shallow embedding of the [MemoryView] class family and of the two
    internal helpers [asMemory] and [asMemoryView], with the properties the
    specification states about them.

    Modelling conventions.
    - JavaScript numbers that serve as sizes, offsets and indices are
      integers ([Z]); [NaN] only appears where the constructor coerces its
      arguments.  Fractions and the infinities are outside the model.
    - Device memory is one flat address space ([list byte]); a [Memory]
      handle is a pointer into it together with its byte length and its
      capacity.
    - A host typed array is its element constructor and the bytes of its
      [ArrayBuffer]; elements are little endian.  For the two floating
      element kinds an element value is identified with its IEEE bit
      pattern: this layer only moves bytes.
    - Methods run in a small state-and-error monad over the [World] (device
      memory and the shared staging buffer [E]); an error stands for a
      raised exception. *)

From Stdlib Require Import ZArith List Lia Bool.
From Stdlib Require Import Strings.Byte.
From Stdlib Require String.
Import ListNotations.
Local Open Scope Z_scope.

(** ** Element kinds *)

(** The eleven typed array constructors of lines 319-329. *)
Inductive TypedArrayConstructor : Set :=
| Int8Array | Int16Array | Int32Array
| Uint8Array | Uint8ClampedArray | Uint16Array | Uint32Array
| Float32Array | Float64Array
| BigInt64Array | BigUint64Array.

Definition BYTES_PER_ELEMENT (T : TypedArrayConstructor) : Z :=
  match T with
  | Int8Array | Uint8Array | Uint8ClampedArray => 1
  | Int16Array | Uint16Array => 2
  | Int32Array | Uint32Array | Float32Array => 4
  | Float64Array | BigInt64Array | BigUint64Array => 8
  end.

Definition is_signed (T : TypedArrayConstructor) : bool :=
  match T with
  | Int8Array | Int16Array | Int32Array | BigInt64Array => true
  | _ => false
  end.

(** ** Bytes and little-endian elements *)

Definition byte_of_Z (z : Z) : byte :=
  match Byte.of_N (Z.to_N (z mod 256)) with
  | Some b => b
  | None => x00
  end.

Definition Z_of_byte (b : byte) : Z := Z.of_N (Byte.to_N b).

Fixpoint le_bytes (n : nat) (z : Z) : list byte :=
  match n with
  | O => []
  | S k => byte_of_Z z :: le_bytes k (z / 256)
  end.

Fixpoint le_value (bs : list byte) : Z :=
  match bs with
  | [] => 0
  | b :: r => Z_of_byte b + 256 * le_value r
  end.

Definition elem_bits (T : TypedArrayConstructor) : Z := 8 * BYTES_PER_ELEMENT T.

(** The values an element of kind [T] can hold. *)
Definition in_range (T : TypedArrayConstructor) (x : Z) : Prop :=
  if is_signed T
  then - 2 ^ (elem_bits T - 1) <= x < 2 ^ (elem_bits T - 1)
  else 0 <= x < 2 ^ elem_bits T.

(** Conversion of a value stored into a typed array: modular wrap-around,
    except for [Uint8ClampedArray], which saturates.  For the floating kinds
    a value is a bit pattern, stored as it is when it has the element's
    width. *)
Definition to_elem (T : TypedArrayConstructor) (x : Z) : Z :=
  match T with
  | Uint8ClampedArray => Z.max 0 (Z.min 255 x)
  | _ =>
      let u := x mod 2 ^ elem_bits T in
      if is_signed T && (2 ^ (elem_bits T - 1) <=? u) then u - 2 ^ elem_bits T else u
  end.

Definition encode (T : TypedArrayConstructor) (x : Z) : list byte :=
  le_bytes (Z.to_nat (BYTES_PER_ELEMENT T)) (to_elem T x).

Definition decode (T : TypedArrayConstructor) (bs : list byte) : Z :=
  let u := le_value bs in
  if is_signed T && (2 ^ (elem_bits T - 1) <=? u) then u - 2 ^ elem_bits T else u.

(** ** Host typed arrays *)

Record typed_array : Set := mk_typed_array {
  ta_type : TypedArrayConstructor;
  ta_bytes : list byte
}.

Definition ta_byteLength (a : typed_array) : Z := Z.of_nat (List.length (ta_bytes a)).

Definition ta_length (a : typed_array) : Z :=
  ta_byteLength a / BYTES_PER_ELEMENT (ta_type a).

(** [new TypedArray(n)]: [n] zero elements; a negative length is a
    [RangeError]. *)
Definition ta_new (T : TypedArrayConstructor) (n : Z) : option typed_array :=
  if n <? 0 then None
  else Some (mk_typed_array T (repeat x00 (Z.to_nat (n * BYTES_PER_ELEMENT T)))).

(** [new TypedArray(values)] and [TypedArray.from(values)]. *)
Definition ta_of_values (T : TypedArrayConstructor) (xs : list Z) : typed_array :=
  mk_typed_array T (concat (map (encode T) xs)).

(** [a.fill(x)]. *)
Definition ta_fill (a : typed_array) (x : Z) : typed_array :=
  mk_typed_array (ta_type a)
    (concat (repeat (encode (ta_type a) x) (Z.to_nat (ta_length a)))).

(** The bytes of element [i]. *)
Definition elem_bytes (T : TypedArrayConstructor) (bs : list byte) (i : nat) : list byte :=
  firstn (Z.to_nat (BYTES_PER_ELEMENT T)) (skipn (i * Z.to_nat (BYTES_PER_ELEMENT T)) bs).

(** [a[i]] for every [i] below the length, in order. *)
Definition ta_values (a : typed_array) : list Z :=
  map (fun i => decode (ta_type a) (elem_bytes (ta_type a) (ta_bytes a) i))
      (seq 0 (Z.to_nat (ta_length a))).

(** [TypedArray.prototype.slice(start, end)] of the language: relative
    indices, clamped to the array. *)
Definition relative_index (len : Z) (x : Z) : Z :=
  if x <? 0 then Z.max (len + x) 0 else Z.min x len.

Definition ta_slice (a : typed_array) (start end_ : option Z) : typed_array :=
  let len := ta_length a in
  let k := relative_index len (match start with Some s => s | None => 0 end) in
  let final := relative_index len (match end_ with Some e => e | None => len end) in
  let count := Z.max (final - k) 0 in
  let B := BYTES_PER_ELEMENT (ta_type a) in
  mk_typed_array (ta_type a)
    (firstn (Z.to_nat (count * B)) (skipn (Z.to_nat (k * B)) (ta_bytes a))).

(** ** The world: device memory and the staging buffer *)

(** [E] is the eight-byte [ArrayBuffer] that line 271 allocates once and
    that line 335 shares between the staging arrays of all element kinds. *)
Record World : Set := mk_world {
  device : list byte;
  E : list byte
}.

Definition initial_world : World := mk_world [] (repeat x00 8).

(** A computation that may change the world and may raise. *)
Definition M (A : Type) : Type := World -> option (World * A).

Definition ret {A : Type} (a : A) : M A := fun w => Some (w, a).

Definition bind {A B : Type} (m : M A) (k : A -> M B) : M B :=
  fun w => match m w with
           | Some (w', a) => k a w'
           | None => None
           end.

Definition raise {A : Type} : M A := fun _ => None.

Declare Scope world_scope.
Delimit Scope world_scope with world.
Notation "x <- m ;; k" := (bind m (fun x => k))
  (at level 61, m at next level, right associativity) : world_scope.
Notation "m ;;; k" := (bind m (fun _ => k))
  (at level 61, right associativity) : world_scope.
Local Open Scope world_scope.

(** ** Collaborators that live outside buffer.ts *)

(** Modelled from the spec: [clampSliceArgs] of ./util (section 4.1,
    "Clamping rule").  Given the length and the optional start and end, a
    negative value is taken as [length + value], both results are clamped
    into [[0, length]], an omitted start is 0, an omitted end is the length,
    and when the start lies beyond the end the window is empty. *)
Definition clampSliceArgs (len : Z) (lhs rhs : option Z) : Z * Z :=
  let wrap x := if x <? 0 then len + x else x in
  let into x := Z.max 0 (Z.min len x) in
  let s := into (wrap (match lhs with Some x => x | None => 0 end)) in
  let e := into (wrap (match rhs with Some x => x | None => len end)) in
  (s, if e <? s then s else e).

Definition clamp := clampSliceArgs.

Module Memory.

(** Modelled from the spec: the device memory handle of ./memory
    (section 3): an address, the logical size and the reserved size. *)
Record t : Set := mk {
  ptr : Z;
  byteLength : Z;
  capacity : Z
}.

(** Modelled from the spec: [Memory.slice(begin, end)] (sections 3 and 6):
    slicing never copies bytes, it aliases the byte range. *)
Definition slice (m : t) (begin end_ : Z) : t :=
  let '(s, e) := clampSliceArgs (byteLength m) (Some begin) (Some end_) in
  mk (ptr m + s) (e - s) (e - s).

End Memory.

(** Modelled from the spec: the default allocator of line 55,
    [new DeviceMemory(byteLength)] (sections 4.2 and 8): a fresh handle whose
    size and capacity are the requested byte length. *)
Definition allocateMemory (byteLength : Z) : M Memory.t :=
  fun w =>
    if byteLength <? 0 then None
    else Some (mk_world (device w ++ repeat x00 (Z.to_nat byteLength)) (E w),
               Memory.mk (Z.of_nat (List.length (device w))) byteLength byteLength).

(** What the copy primitive is handed: device memory at an address or the
    bytes of a host buffer. *)
Inductive span : Set :=
| DeviceSpan (addr : Z)
| HostSpan (bs : list byte).

Definition load (m : list byte) (a n : Z) : option (list byte) :=
  if (0 <=? a) && (0 <=? n) && (a + n <=? Z.of_nat (List.length m))
  then Some (firstn (Z.to_nat n) (skipn (Z.to_nat a) m))
  else None.

Definition store (m : list byte) (a : Z) (d : list byte) : option (list byte) :=
  if (0 <=? a) && (a + Z.of_nat (List.length d) <=? Z.of_nat (List.length m))
  then Some (firstn (Z.to_nat a) m ++ d ++ skipn (Z.to_nat a + List.length d) m)
  else None.

(** Modelled from the spec: the copy primitive [cudaMemcpy(dst, src, n)] of
    the native addon (sections 2 and 6): a synchronous copy of [n] bytes
    between host buffers and device memory; copying outside either side is a
    failure.  A host destination is returned with its new bytes. *)
Definition cudaMemcpy (dst src : span) (n : Z) : M span :=
  fun w =>
    match (match src with
           | DeviceSpan a => load (device w) a n
           | HostSpan bs => load bs 0 n
           end) with
    | None => None
    | Some d =>
        match dst with
        | DeviceSpan a =>
            match store (device w) a d with
            | Some m' => Some (mk_world m' (E w), dst)
            | None => None
            end
        | HostSpan bs =>
            match store bs 0 d with
            | Some bs' => Some (w, HostSpan bs')
            | None => None
            end
        end
    end.

Definition host_bytes (s : span) : list byte :=
  match s with
  | HostSpan bs => bs
  | DeviceSpan _ => []
  end.

(** ** Values handed to the constructor *)

Inductive number : Set :=
| NaN
| Num (z : Z).

(** The argument values the model covers: what the declared parameter type
    [number | undefined] admits, with [null] and the booleans. *)
Inductive value : Set :=
| VUndefined
| VNull
| VBool (b : bool)
| VNumber (n : number).

(** Unary plus. *)
Definition ToNumber (v : value) : number :=
  match v with
  | VUndefined => NaN
  | VNull => Num 0
  | VBool b => Num (if b then 1 else 0)
  | VNumber n => n
  end.

(** [Math.max(+x, 0) || 0]: [Math.max] is [NaN] on [NaN], and both [NaN] and
    0 are falsy. *)
Definition nonneg_or_zero (x : value) : Z :=
  match ToNumber x with
  | NaN => 0
  | Num z => let m := Z.max z 0 in if m =? 0 then 0 else m
  end.

(** ** The class [MemoryView] and the helpers of buffer.ts *)

(** A property key as the traps of lines 226-267 see it: a key whose
    numeric value [+p] is a number, or any other key (a name or a symbol). *)
Inductive property_key : Set :=
| Index (i : Z)
| Named (s : String.string).

Definition property_key_eqb (p q : property_key) : bool :=
  match p, q with
  | Index i, Index j => i =? j
  | Named s, Named r => String.eqb s r
  | _, _ => false
  end.

Module MemoryView.

(** An instance.  [TypedArray] stands for the prototype of the concrete
    subclass (lines 331-335): it fixes [BYTES_PER_ELEMENT], the species
    and the staging array.  [own] holds the properties, other than the
    four fields, that an ordinary property write has put on the object
    itself. *)
Record t : Set := mk {
  TypedArray : TypedArrayConstructor;
  buffer : Memory.t;
  byteOffset : Z;
  byteLength : Z;
  length : Z;
  own : list (property_key * Z)
}.

Definition with_byteOffset (this : t) (o : Z) : t :=
  mk (TypedArray this) (buffer this) o (byteLength this) (length this) (own this).

(** The device address the copy primitive uses for a view. *)
Definition span_of (this : t) : span :=
  DeviceSpan (Memory.ptr (buffer this) + byteOffset this).

(** A chain of [.buffer] links that ends in a memory handle (line 375). *)
Inductive wrapped : Set :=
| Handle (m : Memory.t)
| Wrapper (inner : wrapped).

Fixpoint unwrap (b : wrapped) : Memory.t :=
  match b with
  | Handle m => m
  | Wrapper inner => unwrap inner
  end.

(** What a constructor can be given as its first argument, in the order
    in which [asMemory] tests for it. *)
Inductive source : Set :=
| SNumber (n : Z)
| SView (v : t)
| SMemory (m : Memory.t)
| SArrayBuffer (bs : list byte)
| STypedArray (a : typed_array)
| SIterable (xs : list Z)
| SArrayLike (xs : list Z)
| SViewLike (b : wrapped) (byteOffset byteLength : Z)
| SObject.

(** The object [asMemory] returns. *)
Record layout : Set := mk_layout {
  l_buffer : Memory.t;
  l_byteLength : Z;
  l_byteOffset : Z;
  l_length : Z
}.

(** Lines 339-382.  The quotient of line 381 is exact when the byte length
    is a multiple of the element size; other byte lengths give a fraction in
    the source, which is outside the model (the quotient is rounded down).
    What is proved below about the length of a constructed view assumes a
    source of whole elements ([whole_source], [holds]). *)
Definition asMemory (source_ : source) (T : TypedArrayConstructor) : M layout :=
  let done buffer byteLength byteOffset :=
    ret (mk_layout buffer byteLength byteOffset (byteLength / BYTES_PER_ELEMENT T)) in
  let upload (b : list byte) :=
    let byteLength := Z.of_nat (List.length b) in
    buffer <- allocateMemory byteLength ;;
    cudaMemcpy (DeviceSpan (Memory.ptr buffer)) (HostSpan b) byteLength ;;;
    done buffer byteLength 0 in
  match source_ with
  | SNumber n =>
      let byteLength := n * BYTES_PER_ELEMENT T in
      buffer <- allocateMemory (n * BYTES_PER_ELEMENT T) ;;
      done buffer byteLength 0
  | SView v =>
      let byteLength := MemoryView.byteLength v in
      let buffer := Memory.slice (MemoryView.buffer v) (MemoryView.byteOffset v) byteLength in
      done buffer byteLength 0
  | SMemory m => done m (Memory.byteLength m) 0
  | SArrayBuffer bs => upload bs
  | STypedArray a => upload (ta_bytes a)
  | SIterable xs => upload (ta_bytes (ta_of_values T xs))
  | SArrayLike xs => upload (ta_bytes (ta_of_values T xs))
  | SViewLike b byteOffset byteLength => done (unwrap b) byteLength byteOffset
  | SObject =>
      buffer <- allocateMemory 0 ;;
      done buffer 0 0
  end.

(** The constructor, lines 107-120.  [rest] holds the arguments after the
    first: none, [byteOffset], or [byteOffset] and [length]. *)
Definition new (T : TypedArrayConstructor) (buffer_ : source)
    (rest : option (value * option value)) : M t :=
  f <- asMemory buffer_ T ;;
  let this := mk T (l_buffer f) (l_byteOffset f) (l_byteLength f) (l_length f) [] in
  match rest with
  | Some (byteOffset_, Some length_) =>
      let length_ := nonneg_or_zero length_ in
      ret (mk T (buffer this) (nonneg_or_zero byteOffset_)
              (length_ * BYTES_PER_ELEMENT T) length_ (own this))
  | Some (byteOffset_, None) =>
      ret (with_byteOffset this (nonneg_or_zero byteOffset_))
  | None => ret this
  end.

(** Lines 385-402; the eleven cases of the switch are the eleven
    constructors, so the final [throw] is not reached. *)
Definition asMemoryView (source_ : source) (T : TypedArrayConstructor) : M t :=
  match source_ with
  | SView v => ret v
  | _ => new T source_ None
  end.

(** Lines 197-201. *)
Definition subarray (this : t) (begin end_ : option Z) : M t :=
  let '(begin, end_) := clamp (length this) begin end_ in
  new (TypedArray this) (SMemory (buffer this))
      (Some (VNumber (Num (byteOffset this + begin * BYTES_PER_ELEMENT (TypedArray this))),
             Some (VNumber (Num (end_ - begin))))).

(** Lines 184-189. *)
Definition slice (this : t) (start end_ : option Z) : M t :=
  let '(start, end_) := clamp (length this) start end_ in
  new (TypedArray this)
      (SMemory (Memory.slice (buffer this)
                  (byteOffset this + start * BYTES_PER_ELEMENT (TypedArray this))
                  (byteOffset this + end_ * BYTES_PER_ELEMENT (TypedArray this))))
      None.

(** Lines 156-162. *)
Definition set (this : t) (array : source) (start : option Z) : M unit :=
  let '(offset, size) := clamp (length this) start None in
  source_ <- asMemoryView array (TypedArray this) ;;
  let size := Z.min (size * BYTES_PER_ELEMENT (TypedArray this)) (byteLength source_) in
  dst <- subarray this (Some offset) None ;;
  cudaMemcpy (span_of dst) (span_of source_) size ;;;
  ret tt.

(** Lines 122-125. *)
Definition copyFrom (this : t) (source_ : source) (start : option Z) : M t :=
  set this source_ start ;;; ret this.

(** Lines 172-176. *)
Definition fill (this : t) (value_ : Z) (start end_ : option Z) : M t :=
  let '(start, end_) := clamp (length this) start end_ in
  match ta_new (TypedArray this) (end_ - start) with
  | None => raise
  | Some a => set this (STypedArray (ta_fill a value_)) (Some start) ;;; ret this
  end.

(** What [copyInto] can be given. *)
Inductive target : Set :=
| TView (v : t)
| TArrayBuffer (bs : list byte)
| TTypedArray (a : typed_array)
| TMemory (m : Memory.t).

(** The third branch of [copyInto], lines 132-137. *)
Definition copyInto_view (this : t) (a : typed_array) (start : option Z) : M typed_array :=
  let '(offset, size) := clamp (length this) start None in
  let size := Z.min (size * BYTES_PER_ELEMENT (TypedArray this)) (ta_byteLength a) in
  src <- subarray this (Some offset) None ;;
  r <- cudaMemcpy (HostSpan (ta_bytes a)) (span_of src) size ;;
  ret (mk_typed_array (ta_type a) (host_bytes r)).

(** Lines 127-139; the target is returned as the call leaves it. *)
Definition copyInto (this : t) (target_ : target) (start : option Z) : M target :=
  match target_ with
  | TView v => set v (SView this) start ;;; ret target_
  | TArrayBuffer bs =>
      r <- cudaMemcpy (HostSpan bs) (span_of this)
             (Z.min (byteLength this) (Z.of_nat (List.length bs))) ;;
      ret (TArrayBuffer (host_bytes r))
  | TTypedArray a =>
      a' <- copyInto_view this a start ;;
      ret (TTypedArray a')
  | TMemory _ => ret target_
  end.

(** Lines 145-149. *)
Definition toArray (this : t) : M typed_array :=
  match ta_new (TypedArray this) (length this) with
  | None => raise
  | Some target_ => copyInto_view this target_ None
  end.

(** What the [get] trap returns. *)
Inductive got : Set :=
| Element (x : Z)
| Undefined
| Ordinary (p : property_key).

Definition get_E : M (list byte) := fun w => Some (w, E w).
Definition put_E (e : list byte) : M unit := fun w => Some (mk_world (device w) e, tt).

(** The [get] trap, lines 227-246.  The receiver is returned as the trap
    leaves it; a key that is not a number goes to [Reflect.get] on the
    empty target.  When the copy raises, the source leaves the byte offset
    advanced; the error of the monad does not carry the receiver. *)
Definition get (p : property_key) (receiver : t) : M (t * got) :=
  match p with
  | Named _ => ret (receiver, Ordinary p)
  | Index i =>
      if (-1 <? i) && (i <? length receiver) then
        let byteOffset_ := byteOffset receiver in
        let B := BYTES_PER_ELEMENT (TypedArray receiver) in
        let receiver := with_byteOffset receiver (byteOffset_ + i * B) in
        e <- get_E ;;
        r <- cudaMemcpy (HostSpan e) (span_of receiver) B ;;
        put_E (host_bytes r) ;;;
        let receiver := with_byteOffset receiver byteOffset_ in
        ret (receiver, Element (decode (TypedArray receiver)
                                  (elem_bytes (TypedArray receiver) (host_bytes r) 0)))
      else ret (receiver, Undefined)
  end.

(** [Reflect.set(target, p, value, receiver)] on the empty target: the
    value becomes an own property of the receiver. *)
Definition Reflect_set (p : property_key) (value_ : Z) (receiver : t) : M (t * bool) :=
  ret (mk (TypedArray receiver) (buffer receiver) (byteOffset receiver)
          (byteLength receiver) (length receiver)
          ((p, value_) :: filter (fun kv => negb (property_key_eqb (fst kv) p)) (own receiver)),
       true).

(** The [set] trap, lines 247-266. *)
Definition set_ (p : property_key) (value_ : Z) (receiver : t) : M (t * bool) :=
  match p with
  | Named _ => Reflect_set p value_ receiver
  | Index i =>
      if (-1 <? i) && (i <? length receiver) then
        let byteOffset_ := byteOffset receiver in
        let B := BYTES_PER_ELEMENT (TypedArray receiver) in
        let receiver := with_byteOffset receiver (byteOffset_ + i * B) in
        e <- get_E ;;
        let e := encode (TypedArray receiver) value_ ++ skipn (Z.to_nat B) e in
        put_E e ;;;
        cudaMemcpy (span_of receiver) (HostSpan e) B ;;;
        let receiver := with_byteOffset receiver byteOffset_ in
        ret (receiver, true)
      else Reflect_set p value_ receiver
  end.

End MemoryView.

(** ** Predicates on views *)

Import MemoryView.

(** The bound of section 3 of the specification. *)
Definition within_capacity (v : MemoryView.t) : Prop :=
  byteOffset v + byteLength v <= Memory.capacity (buffer v).

(** The byte length is the element count times the element size. *)
Definition whole_elements (v : MemoryView.t) : Prop :=
  byteLength v = length v * BYTES_PER_ELEMENT (TypedArray v).

(** The bytes the view spans are device memory. *)
Definition in_device (w : World) (v : MemoryView.t) : Prop :=
  0 <= Memory.ptr (buffer v) + byteOffset v /\
  Memory.ptr (buffer v) + byteOffset v + byteLength v <= Z.of_nat (List.length (device w)).

(** The staging buffer has its eight bytes. *)
Definition staging_ok (w : World) : Prop := List.length (E w) = 8%nat.

(** A constructor argument that unary plus does not turn into a
    non-negative number. *)
Definition uncoercible (x : value) : Prop :=
  match ToNumber x with
  | NaN => True
  | Num z => z < 0
  end.

(** The device address of element [i] of a view. *)
Definition element_address (v : MemoryView.t) (i : Z) : Z :=
  Memory.ptr (buffer v) + (byteOffset v + i * BYTES_PER_ELEMENT (TypedArray v)).

(** The bytes that [asMemory] uploads for a host-resident source. *)
Definition uploaded (T : TypedArrayConstructor) (src : source) : option (list byte) :=
  match src with
  | SArrayBuffer bs => Some bs
  | STypedArray a => Some (ta_bytes a)
  | SIterable xs | SArrayLike xs => Some (ta_bytes (ta_of_values T xs))
  | _ => None
  end.

(** A first argument for which single-argument construction keeps inside
    the handle: a length, host data, an object of no known shape, or a
    handle whose size is within its capacity. *)
Definition fits (src : source) : Prop :=
  match src with
  | SMemory m => 0 <= Memory.byteLength m <= Memory.capacity m
  | SView _ | SViewLike _ _ _ => False
  | _ => True
  end.

(** The views that are constructed with arguments that fit the handle, and
    the views the methods and the traps give back from them. *)
Inductive established : MemoryView.t -> Prop :=
| est_new T src w w' v :
    fits src -> new T src None w = Some (w', v) -> established v
| est_wrap T m off len w w' v :
    0 <= off -> 0 <= len ->
    off + len * BYTES_PER_ELEMENT T <= Memory.capacity m ->
    new T (SMemory m) (Some (VNumber (Num off), Some (VNumber (Num len)))) w = Some (w', v) ->
    established v
| est_subarray u a b w w' v :
    established u -> subarray u a b w = Some (w', v) -> established v
| est_slice u a b w w' v :
    established u -> slice u a b w = Some (w', v) -> established v
| est_fill u x a b w w' v :
    established u -> fill u x a b w = Some (w', v) -> established v
| est_copyFrom u src a w w' v :
    established u -> copyFrom u src a w = Some (w', v) -> established v
| est_get u p w w' v r :
    established u -> get p u w = Some (w', (v, r)) -> established v
| est_set_ u p x w w' v r :
    established u -> set_ p x u w = Some (w', (v, r)) -> established v.

(** What the established views have in common. *)
Definition sound (v : MemoryView.t) : Prop :=
  within_capacity v /\ 0 <= byteOffset v /\ 0 <= length v /\
  length v * BYTES_PER_ELEMENT (TypedArray v) <= byteLength v.

(** A host array: a typed array or a plain array of numbers. *)
Inductive host_array : Set :=
| Typed (a : typed_array)
| Plain (xs : list Z).

Definition host_values (h : host_array) : list Z :=
  match h with
  | Typed a => ta_values a
  | Plain xs => xs
  end.

Definition host_source (h : host_array) : source :=
  match h with
  | Typed a => STypedArray a
  | Plain xs => SIterable xs
  end.

(** The array holds values of element kind [T]: a typed array of that kind
    (its bytes are whole elements), or numbers in the range of the kind. *)
Definition holds (T : TypedArrayConstructor) (h : host_array) : Prop :=
  match h with
  | Typed a => ta_type a = T /\ (ta_byteLength a mod BYTES_PER_ELEMENT T = 0)
  | Plain xs => Forall (in_range T) xs
  end.

(** * Further definitions for buffer.ts *)

(** [a[i]] on a host typed array; [None] is [undefined]. *)
Definition ta_get (a : typed_array) (i : Z) : option Z :=
  if (0 <=? i) && (i <? ta_length a)
  then Some (decode (ta_type a) (elem_bytes (ta_type a) (ta_bytes a) (Z.to_nat i)))
  else None.

(** The bytes of a view in device memory. *)
Definition view_bytes (w : World) (v : MemoryView.t) : list byte :=
  firstn (Z.to_nat (byteLength v))
    (skipn (Z.to_nat (Memory.ptr (buffer v) + byteOffset v)) (device w)).

(** A view of four 16-bit elements over eight bytes of device memory, for
    the examples. *)
Definition four_shorts : MemoryView.t :=
  MemoryView.mk Int16Array (Memory.mk 0 8 8) 0 8 4 [].

Definition eight_bytes : World :=
  mk_world (map byte_of_Z [1; 0; 2; 0; 3; 0; 4; 0]) (repeat x00 8).

(** A view as the methods expect it: non-negative offset and length, whole
    elements, inside device memory. *)
Definition settled (w : World) (v : MemoryView.t) : Prop :=
  0 <= length v /\ 0 <= byteOffset v /\ whole_elements v /\ in_device w v.

(** The byte length that [asMemory] finds for the source is a multiple of
    the element size, so that the quotient of line 381 is a whole number
    (a length and a sequence of values always give whole elements). *)
Definition whole_source (T : TypedArrayConstructor) (src : source) : Prop :=
  match src with
  | SView u => byteLength u mod BYTES_PER_ELEMENT T = 0
  | SMemory m => Memory.byteLength m mod BYTES_PER_ELEMENT T = 0
  | SArrayBuffer bs => Z.of_nat (List.length bs) mod BYTES_PER_ELEMENT T = 0
  | STypedArray a => ta_byteLength a mod BYTES_PER_ELEMENT T = 0
  | SViewLike _ _ n => n mod BYTES_PER_ELEMENT T = 0
  | SNumber _ | SIterable _ | SArrayLike _ | SObject => True
  end.

(** The own property of a view object under a key, if it has one. *)
Definition own_property (p : property_key) (this : MemoryView.t) : option Z :=
  option_map snd (find (fun kv => property_key_eqb (fst kv) p) (own this)).

(** The view object with the value as its own property under the key. *)
Definition put_own (p : property_key) (x : Z) (this : MemoryView.t) : MemoryView.t :=
  MemoryView.mk (TypedArray this) (buffer this) (byteOffset this)
    (byteLength this) (length this)
    ((p, x) :: filter (fun kv => negb (property_key_eqb (fst kv) p)) (own this)).

(** [v[i]] as the language evaluates it on a view object.  An own property
    under the key is found first.  The classes define no property under an
    index, so for any other index the lookup arrives at the end of the
    prototype chain, where line 226 has put the proxy, and the [get] trap
    answers.  [None] is [undefined]. *)
Definition indexed_read (this : MemoryView.t) (i : Z) : M (MemoryView.t * option Z) :=
  match own_property (Index i) this with
  | Some x => ret (this, Some x)
  | None =>
      r <- get (Index i) this ;;
      ret (fst r, match snd r with Element x => Some x | _ => None end)
  end.

(** [v[i] = x] as the language evaluates it: an own property under the key
    takes the value; for any other index the [set] trap answers. *)
Definition indexed_write (this : MemoryView.t) (i x : Z) : M MemoryView.t :=
  match own_property (Index i) this with
  | Some _ => ret (put_own (Index i) x this)
  | None => r <- set_ (Index i) x this ;; ret (fst r)
  end.

(** * Column accessors (the [ColumnAccessor] class)

    The class keeps a plain object from column names to columns and a [Map]
    from each name to its position.  An object is the list of its own
    properties in the order in which [Object.keys] reports them: array
    indices ascending, then the other names in the order of their creation.
    Its prototype is [Object.prototype], whose properties the [in] operator
    and a property read also find.  Data objects with an own
    property [__proto__] are outside the model: the theorems exclude them
    where a method would assign that key. *)

Module ColumnAccessor.

Import Ascii String.

(** The value of a decimal digit. *)
Definition digit (c : Ascii.ascii) : option N :=
  let n := Ascii.N_of_ascii c in
  if ((48 <=? n) && (n <=? 57))%N then Some (n - 48)%N else None.

Fixpoint digits (s : string) (acc : N) : option N :=
  match s with
  | EmptyString => Some acc
  | String c r =>
      match digit c with
      | Some d => digits r (10 * acc + d)%N
      | None => None
      end
  end.

(** An array index of the language: the canonical decimal form of an
    integer below [2^32 - 1]. *)
Definition array_index (s : string) : option N :=
  match s with
  | EmptyString => None
  | String c r =>
      match digits s 0 with
      | Some n =>
          let leading_zero :=
            match r with
            | EmptyString => false
            | String _ _ => Ascii.eqb c "0"%char
            end in
          if leading_zero then None
          else if (n <? 2 ^ 32 - 1)%N then Some n else None
      | None => None
      end
  end.

(** The properties of [Object.prototype] and the [length] of each: the
    arity of the function, and nothing for the accessor [__proto__]. *)
Definition Object_prototype : list (string * option Z) :=
  [ ("constructor", Some 1); ("hasOwnProperty", Some 1); ("isPrototypeOf", Some 1);
    ("propertyIsEnumerable", Some 1); ("toLocaleString", Some 0);
    ("toString", Some 0); ("valueOf", Some 0);
    ("__defineGetter__", Some 2); ("__defineSetter__", Some 2);
    ("__lookupGetter__", Some 1); ("__lookupSetter__", Some 1);
    ("__proto__", None) ]%string.

(** The key of the prototype accessor. *)
Definition proto_key : string := "__proto__"%string.

Fixpoint lookup {A : Type} (k : string) (o : list (string * A)) : option A :=
  match o with
  | [] => None
  | (k', v) :: r => if String.eqb k k' then Some v else lookup k r
  end.

Definition inherited (k : string) : bool :=
  match lookup k Object_prototype with
  | Some _ => true
  | None => false
  end.

Section Columns.

(** A column, of which the class only reads the length. *)
Variable Column : Type.
Variable column_length : Column -> Z.

(** What a property read on the data object can give: a column, or a
    member of [Object.prototype]. *)
Inductive member : Type :=
| Col (c : Column)
| Inherited (k : string).

Definition object (A : Type) : Type := list (string * A).

(** [Object.keys(o)] and [Object.values(o)]. *)
Definition keys {A : Type} (o : object A) : list string := map fst o.
Definition values {A : Type} (o : object A) : list A := map snd o.

(** [k in o]. *)
Definition has {A : Type} (k : string) (o : object A) : bool :=
  match lookup k o with
  | Some _ => true
  | None => inherited k
  end.

(** [o[k]]; [None] is [undefined]. *)
Definition read (o : object member) (k : string) : option member :=
  match lookup k o with
  | Some v => Some v
  | None => if inherited k then Some (Inherited k) else None
  end.

(** The place of a new key: an array index goes before the first key that
    is a larger index or no index; any other key goes last. *)
Fixpoint insert_key {A : Type} (k : string) (v : A) (o : object A) : object A :=
  match o with
  | [] => [(k, v)]
  | (k', v') :: r =>
      match array_index k, array_index k' with
      | Some n, Some n' =>
          if (n <? n')%N then (k, v) :: o else (k', v') :: insert_key k v r
      | Some _, None => (k, v) :: o
      | None, _ => (k', v') :: insert_key k v r
      end
  end.

Fixpoint replace {A : Type} (k : string) (v : A) (o : object A) : object A :=
  match o with
  | [] => []
  | (k', v') :: r =>
      if String.eqb k k' then (k, v) :: r else (k', v') :: replace k v r
  end.

(** The definition of an own property, as a spread or a computed key of an
    object literal does it. *)
Definition define {A : Type} (k : string) (v : A) (o : object A) : object A :=
  match lookup k o with
  | Some _ => replace k v o
  | None => insert_key k v o
  end.

(** The assignment [o[k] = v]: as [define], but assigning to [__proto__]
    runs the setter of [Object.prototype] and creates no property. *)
Definition assign {A : Type} (k : string) (v : A) (o : object A) : object A :=
  if String.eqb k proto_key then o else define k v o.

(** [{...a, ...b}]. *)
Definition spread {A : Type} (a b : object A) : object A :=
  fold_left (fun o kv => define (fst kv) (snd kv) o) b
    (fold_left (fun o kv => define (fst kv) (snd kv) o) a []).

(** [m.length]; [None] is [undefined]. *)
Definition member_length (m : member) : option Z :=
  match m with
  | Col c => Some (column_length c)
  | Inherited k =>
      match lookup k Object_prototype with
      | Some l => l
      | None => None
      end
  end.

(** [x == y] on two lengths. *)
Definition loosely_equal (x y : option Z) : bool :=
  match x, y with
  | Some a, Some b => a =? b
  | None, None => true
  | _, _ => false
  end.

(** [Map.prototype.set] and [Map.prototype.get]. *)
Definition Map_set (m : list (string * nat)) (k : string) (i : nat) : list (string * nat) :=
  match lookup k m with
  | Some _ => replace k i m
  | None => m ++ [(k, i)]
  end.

Definition Map_get (m : list (string * nat)) (k : string) : option nat := lookup k m.

(** An instance. *)
Record t : Type := mk {
  _data : object member;
  _labels_to_indices : list (string * nat)
}.

(** [forEach((val, index) => map.set(val, index))] from position [i] on. *)
Fixpoint set_labels (ns : list string) (i : nat) (m : list (string * nat)) :
    list (string * nat) :=
  match ns with
  | [] => m
  | n :: r => set_labels r (S i) (Map_set m n i)
  end.

(** The constructor, lines 22-32; [None] is the thrown error. *)
Definition new (data : object member) : option t :=
  let columns := values data in
  let same :=
    match columns with
    | [] => true
    | c0 :: _ =>
        let N := member_length c0 in
        forallb (fun col => loosely_equal (member_length col) N) columns
    end in
  if same then Some (mk data (set_labels (keys data) 0 [])) else None.

(** Line 34. *)
Definition names (this : t) : list string := keys (_data this).

(** Line 36. *)
Definition columns (this : t) : list member := values (_data this).

(** Line 38. *)
Definition length (this : t) : nat := List.length (_labels_to_indices this).

(** Lines 40-43; the outer [None] is the thrown error, the inner one is
    [undefined]. *)
Definition get (this : t) (name : string) : option (option member) :=
  if negb (has name (_data this)) then None
  else Some (read (_data this) name).

(** Lines 45-47. *)
Definition addColumns (this : t) (data : object member) : option t :=
  new (spread (_data this) data).

(** Lines 49-56.  Each [name] is an own key of [_data], so the read on
    line 53 finds a member. *)
Definition dropColumns (this : t) (names_ : list string) : option t :=
  let namesMap :=
    fold_left (fun xs x => define x true (spread xs [])) names_ ([] : object bool) in
  let data :=
    fold_left (fun data name =>
                 if negb (has name namesMap)
                 then match read (_data this) name with
                      | Some v => assign name v data
                      | None => data
                      end
                 else data)
              (names this) ([] : object member) in
  new data.

(** Lines 60-66. *)
Definition selectByColumnNames (this : t) (names_ : list string) : option t :=
  let data :=
    fold_left (fun data name =>
                 match read (_data this) name with
                 | Some v => assign name v data
                 | None => data
                 end)
              names_ ([] : object member) in
  new data.

(** Line 58. *)
Definition selectByColumnName (this : t) (name : string) : option t :=
  selectByColumnNames this [name].

(** Lines 68-70. *)
Definition columnNameToColumnIndex (this : t) (name : string) : option nat :=
  Map_get (_labels_to_indices this) name.

End Columns.

Arguments Col {Column} c.
Arguments Inherited {Column} k.
Arguments read {Column} o k.
Arguments member_length {Column} column_length m.
Arguments mk {Column} _data _labels_to_indices.
Arguments _data {Column} t.
Arguments _labels_to_indices {Column} t.
Arguments new {Column} column_length data.
Arguments names {Column} this.
Arguments columns {Column} this.
Arguments length {Column} this.
Arguments get {Column} this name.
Arguments addColumns {Column} column_length this data.
Arguments dropColumns {Column} column_length this names_.
Arguments selectByColumnNames {Column} column_length this names_.
Arguments selectByColumnName {Column} column_length this name.
Arguments columnNameToColumnIndex {Column} this name.

(** Three columns of three rows, for the examples. *)
Definition abc : object (@member Z) :=
  [("a"%string, Col 3); ("b"%string, Col 3); ("c"%string, Col 3)].

Definition de : object (@member Z) := [("d"%string, Col 3); ("e"%string, Col 3)].

Definition b_again : object (@member Z) := [("b"%string, Col 3); ("d"%string, Col 3)].

Definition c_zz_a_c : list string := ["c"; "zz"; "a"; "c"]%string.

(** The accessors that the constructor builds from [abc] and from [abc]
    followed by [de]. *)
Definition abc_accessor : t Z := mk abc (set_labels (keys abc) 0 []).

Definition abcde_accessor : t Z :=
  mk (abc ++ de) (set_labels (keys (abc ++ de)) 0 []).

End ColumnAccessor.

(** A key that an assignment appends: no array index and not [__proto__]. *)
Definition ordinary (k : String.string) : Prop :=
  ColumnAccessor.array_index k = None /\ k <> ColumnAccessor.proto_key.

(** An object as the language keeps it, restricted to ordinary keys: no key
    twice. *)
Definition plain_object {A : Type} (o : ColumnAccessor.object A) : Prop :=
  NoDup (ColumnAccessor.keys o) /\ Forall ordinary (ColumnAccessor.keys o).

(** [k] is one of [ks]. *)
Definition among (ks : list String.string) (k : String.string) : bool :=
  existsb (String.eqb k) ks.

(** [b] where it has the key, [a] elsewhere, in the order of [a]. *)
Definition overridden {A : Type} (a b : ColumnAccessor.object A) : ColumnAccessor.object A :=
  map (fun kv => match ColumnAccessor.lookup (fst kv) b with
                 | Some v => (fst kv, v)
                 | None => kv
                 end) a.

(** The properties of [b] whose key [a] does not have. *)
Definition added {A : Type} (a b : ColumnAccessor.object A) : ColumnAccessor.object A :=
  filter (fun kv => negb (among (ColumnAccessor.keys a) (fst kv))) b.

(** The names of [l] that are not in [seen], in the order of their first
    occurrence, after [seen]. *)
Definition firsts_from (seen l : list String.string) : list String.string :=
  fold_left (fun acc n => if among acc n then acc else acc ++ [n]) l seen.

Definition firsts (l : list String.string) : list String.string := firsts_from [] l.

(** ** Proof tactics *)

Ltac split_ltb :=
  repeat match goal with
         | |- context [Z.ltb ?x ?y] => destruct (Z.ltb_spec x y)
         | H : context [Z.ltb ?x ?y] |- _ => destruct (Z.ltb_spec x y)
         end.

Ltac split_leb :=
  match goal with
  | |- context [Z.leb ?a ?b] => destruct (Z.leb_spec a b)
  end.

(** * Properties *)

(** ** Element sizes *)

Lemma BYTES_PER_ELEMENT_pos (T : TypedArrayConstructor) : 0 < BYTES_PER_ELEMENT T.
Proof. destruct T; reflexivity. Qed.

Lemma BYTES_PER_ELEMENT_le_8 (T : TypedArrayConstructor) : BYTES_PER_ELEMENT T <= 8.
Proof. destruct T; discriminate. Qed.

(** ** Bytes *)

Lemma Z_of_byte_range (b : byte) : 0 <= Z_of_byte b < 256.
Proof.
  unfold Z_of_byte. pose proof (Byte.to_N_bounded b) as H.
  split; [apply N2Z.is_nonneg|]. lia.
Qed.

Lemma Z_of_byte_of_Z (z : Z) : Z_of_byte (byte_of_Z z) = z mod 256.
Proof.
  unfold Z_of_byte, byte_of_Z.
  pose proof (Z.mod_pos_bound z 256 ltac:(lia)) as Hb.
  destruct (Byte.of_N (Z.to_N (z mod 256))) as [b|] eqn:Hof.
  - apply Byte.to_of_N in Hof. rewrite Hof. rewrite Z2N.id; lia.
  - apply Byte.of_N_None_iff in Hof. lia.
Qed.

Lemma length_le_bytes (n : nat) (z : Z) : List.length (le_bytes n z) = n.
Proof. revert z; induction n as [|n IH]; intros z; simpl; [reflexivity|]. now rewrite IH. Qed.

Lemma le_value_le_bytes (n : nat) (z : Z) :
  le_value (le_bytes n z) = z mod 2 ^ (8 * Z.of_nat n).
Proof.
  revert z; induction n as [|n IH]; intros z.
  - simpl. now rewrite Z.mod_1_r.
  - cbn [le_bytes le_value]. rewrite IH, Z_of_byte_of_Z.
    replace (8 * Z.of_nat (S n)) with (8 + 8 * Z.of_nat n) by lia.
    rewrite Z.pow_add_r by lia. change (2 ^ 8) with 256.
    rewrite Z.rem_mul_r by lia. reflexivity.
Qed.

Lemma length_encode (T : TypedArrayConstructor) (x : Z) :
  List.length (encode T x) = Z.to_nat (BYTES_PER_ELEMENT T).
Proof. apply length_le_bytes. Qed.

Lemma to_elem_in_range (T : TypedArrayConstructor) (x : Z) :
  in_range T x -> to_elem T x = x.
Proof.
  unfold in_range, to_elem, elem_bits.
  destruct T; cbn -[Z.pow Z.modulo Z.leb Z.max Z.min]; intros H;
    try (rewrite Z.mod_small by lia; reflexivity);
    try lia.
  all: destruct (Z.ltb_spec x 0) as [Hx|Hx];
    [ rewrite <- (Z.mod_add x 1) by lia | ];
    rewrite Z.mod_small by lia; split_leb; lia.
Qed.

Lemma to_elem_range (T : TypedArrayConstructor) (x : Z) : in_range T (to_elem T x).
Proof.
  unfold in_range, to_elem, elem_bits.
  destruct T; cbn -[Z.pow Z.modulo Z.leb Z.max Z.min];
    try (apply Z.mod_pos_bound; lia); try lia.
  all: match goal with
       | |- context [Z.modulo ?a ?m] => pose proof (Z.mod_pos_bound a m ltac:(lia)) as Hm
       end; split_leb; lia.
Qed.

Lemma decode_encode (T : TypedArrayConstructor) (x : Z) :
  decode T (encode T x) = to_elem T x.
Proof.
  pose proof (to_elem_range T x) as Hr.
  unfold decode, encode. rewrite le_value_le_bytes.
  pose proof (BYTES_PER_ELEMENT_pos T).
  rewrite Z2Nat.id by lia. fold (elem_bits T).
  generalize dependent (to_elem T x). intros y Hr.
  unfold in_range, elem_bits in *.
  destruct T; cbn -[Z.pow Z.modulo Z.leb] in *;
    try (rewrite Z.mod_small by lia; reflexivity).
  all: destruct (Z.ltb_spec y 0) as [Hy|Hy];
    [ rewrite <- (Z.mod_add y 1) by lia | ];
    rewrite Z.mod_small by lia; split_leb; lia.
Qed.

(** ** Loads and stores *)

Lemma load_Some (m : list byte) (a n : Z) :
  0 <= a -> 0 <= n -> a + n <= Z.of_nat (List.length m) ->
  load m a n = Some (firstn (Z.to_nat n) (skipn (Z.to_nat a) m)).
Proof.
  intros Ha Hn Hb. unfold load.
  destruct (Z.leb_spec 0 a); [|lia].
  destruct (Z.leb_spec 0 n); [|lia].
  destruct (Z.leb_spec (a + n) (Z.of_nat (List.length m))); [|lia].
  reflexivity.
Qed.

Lemma load_inv (m : list byte) (a n : Z) (d : list byte) :
  load m a n = Some d ->
  0 <= a /\ 0 <= n /\ a + n <= Z.of_nat (List.length m) /\
  d = firstn (Z.to_nat n) (skipn (Z.to_nat a) m).
Proof.
  unfold load.
  destruct (Z.leb_spec 0 a); [|discriminate].
  destruct (Z.leb_spec 0 n); [|discriminate].
  destruct (Z.leb_spec (a + n) (Z.of_nat (List.length m))); [|discriminate].
  cbn. intros [= <-]. auto.
Qed.

Lemma length_load (m : list byte) (a n : Z) (d : list byte) :
  load m a n = Some d -> List.length d = Z.to_nat n.
Proof.
  intros H. apply load_inv in H as (Ha & Hn & Hb & ->).
  rewrite length_firstn, length_skipn. lia.
Qed.

Lemma store_Some (m : list byte) (a : Z) (d : list byte) :
  0 <= a -> a + Z.of_nat (List.length d) <= Z.of_nat (List.length m) ->
  store m a d =
  Some (firstn (Z.to_nat a) m ++ d ++ skipn (Z.to_nat a + List.length d) m).
Proof.
  intros Ha Hb. unfold store.
  destruct (Z.leb_spec 0 a); [|lia].
  destruct (Z.leb_spec (a + Z.of_nat (List.length d)) (Z.of_nat (List.length m))); [|lia].
  reflexivity.
Qed.

Lemma store_inv (m : list byte) (a : Z) (d m' : list byte) :
  store m a d = Some m' ->
  0 <= a /\ a + Z.of_nat (List.length d) <= Z.of_nat (List.length m) /\
  m' = firstn (Z.to_nat a) m ++ d ++ skipn (Z.to_nat a + List.length d) m.
Proof.
  unfold store.
  destruct (Z.leb_spec 0 a); [|discriminate].
  destruct (Z.leb_spec (a + Z.of_nat (List.length d)) (Z.of_nat (List.length m)));
    [|discriminate].
  cbn. intros [= <-]. auto.
Qed.

Lemma length_store (m : list byte) (a : Z) (d m' : list byte) :
  store m a d = Some m' -> List.length m' = List.length m.
Proof.
  intros H. apply store_inv in H as (Ha & Hb & ->).
  rewrite !length_app, length_firstn, length_skipn. lia.
Qed.

Lemma load_store_same (m : list byte) (a : Z) (d m' : list byte) :
  store m a d = Some m' -> load m' a (Z.of_nat (List.length d)) = Some d.
Proof.
  intros H. pose proof (length_store _ _ _ _ H) as Hl.
  apply store_inv in H as (Ha & Hb & ->).
  rewrite load_Some by lia. f_equal.
  rewrite Nat2Z.id.
  rewrite skipn_app, length_firstn.
  replace (Z.to_nat a - Nat.min (Z.to_nat a) (List.length m))%nat with 0%nat by lia.
  rewrite skipn_all2 by (rewrite length_firstn; lia).
  cbn [skipn app].
  rewrite firstn_app, Nat.sub_diag, firstn_all. cbn. apply app_nil_r.
Qed.

Lemma store_fresh (m d : list byte) :
  store (m ++ repeat x00 (List.length d)) (Z.of_nat (List.length m)) d = Some (m ++ d).
Proof.
  rewrite store_Some; rewrite ?length_app, ?repeat_length; try lia.
  f_equal. rewrite Nat2Z.id.
  rewrite firstn_app, Nat.sub_diag, firstn_all. cbn [firstn]. rewrite app_nil_r.
  rewrite skipn_all2 by (rewrite length_app, repeat_length; lia).
  now rewrite app_nil_r.
Qed.

Lemma load_all (d : list byte) : load d 0 (Z.of_nat (List.length d)) = Some d.
Proof.
  rewrite load_Some by lia. rewrite Nat2Z.id. cbn [Z.to_nat skipn].
  now rewrite firstn_all.
Qed.

Lemma load_app_tail (m d : list byte) :
  load (m ++ d) (Z.of_nat (List.length m)) (Z.of_nat (List.length d)) = Some d.
Proof.
  rewrite load_Some; rewrite ?length_app; try lia.
  rewrite !Nat2Z.id. rewrite skipn_app, Nat.sub_diag, skipn_all. cbn [skipn app].
  now rewrite firstn_all.
Qed.

(** ** The clamping rule *)

Lemma clamp_bounds (len : Z) (a b : option Z) :
  0 <= len ->
  0 <= fst (clamp len a b) <= snd (clamp len a b) /\ snd (clamp len a b) <= len.
Proof.
  intros Hl. unfold clamp, clampSliceArgs. cbn [fst snd]. cbv beta zeta.
  repeat match goal with
         | |- context [Z.ltb ?x ?y] => destruct (Z.ltb_spec x y)
         end; lia.
Qed.

Lemma clamp_inside (len s e : Z) :
  0 <= s <= e -> e <= len -> clamp len (Some s) (Some e) = (s, e).
Proof.
  intros Hs He. unfold clamp, clampSliceArgs. cbv beta zeta.
  split_ltb; f_equal; lia.
Qed.

Lemma clamp_from (len s : Z) :
  0 <= s <= len -> clamp len (Some s) None = (s, len).
Proof.
  intros Hs. unfold clamp, clampSliceArgs. cbv beta zeta.
  split_ltb; f_equal; lia.
Qed.

Lemma clamp_whole (len : Z) : 0 <= len -> clamp len None None = (0, len).
Proof.
  intros Hl. unfold clamp, clampSliceArgs. cbv beta zeta.
  split_ltb; f_equal; lia.
Qed.

(** On a non-negative length the rule is the one of the language's own
    [slice]: the same first index and the same number of elements. *)
Lemma clamp_relative_index (len : Z) (a b : option Z) :
  0 <= len ->
  let k := relative_index len (match a with Some s => s | None => 0 end) in
  let final := relative_index len (match b with Some e => e | None => len end) in
  clamp len a b = (k, k + Z.max (final - k) 0).
Proof.
  intros Hl. unfold clamp, clampSliceArgs, relative_index. cbv beta zeta.
  split_ltb; f_equal; lia.
Qed.

(** ** Running the monad *)

Lemma bind_Some {A B : Type} (m : M A) (k : A -> M B) (w w' : World) (a : A) :
  m w = Some (w', a) -> bind m k w = k a w'.
Proof. intros H. unfold bind. now rewrite H. Qed.

Lemma bind_inv {A B : Type} (m : M A) (k : A -> M B) (w w2 : World) (b : B) :
  bind m k w = Some (w2, b) ->
  exists w1 a, m w = Some (w1, a) /\ k a w1 = Some (w2, b).
Proof.
  unfold bind. destruct (m w) as [[w1 a]|]; [|discriminate].
  intros H. now exists w1, a.
Qed.

(** ** The clamping rule of the methods *)

(** C6.  The rule shared by [fill], [slice], [subarray] and [set]: on a view
    of non-negative length, a negative start or end counts from the length,
    both are clamped into [[0, length]], an omitted start is 0, an omitted
    end is the length, a start beyond the end gives the empty window at the
    start; and on a view of length 10, [slice(-3)] is [slice(7, 10)]. *)
Theorem clamping_rule (v : MemoryView.t) (start end_ : option Z) :
  0 <= length v ->
  let len := length v in
  let s := fst (clamp len start end_) in
  let e := snd (clamp len start end_) in
  (0 <= s <= e /\ e <= len) /\
  match start with
  | None => s = 0
  | Some x => s = if x <? 0 then Z.max 0 (len + x) else Z.min x len
  end /\
  match end_ with
  | None => e = len
  | Some y => e = Z.max s (if y <? 0 then Z.max 0 (len + y) else Z.min y len)
  end /\
  (len = 10 -> forall w, slice v (Some (-3)) None w = slice v (Some 7) (Some 10) w).
Proof.
  intros Hl len s e. split; [apply (clamp_bounds len start end_ Hl)|].
  subst s e. unfold clamp, clampSliceArgs. cbn [fst snd]. cbv beta zeta.
  split; [|split].
  - destruct start as [x|]; split_ltb; lia.
  - destruct end_ as [y|]; destruct start as [x|]; split_ltb; lia.
  - intros H10 w. unfold slice. fold len. rewrite H10. reflexivity.
Qed.

Lemma clamping_rule_witness :
  let v := MemoryView.mk Int16Array (Memory.mk 0 20 20) 0 20 10 [] in
  snd (clamp (length v) (Some (-3)) None) = length v /\
  forall w, slice v (Some (-3)) None w = slice v (Some 7) (Some 10) w.
Proof.
  intros v.
  pose proof (clamping_rule v (Some (-3)) None ltac:(cbn; lia)) as (_ & _ & He & Hs).
  split; [exact He | exact (Hs eq_refl)].
Defined.

(** ** Construction with an argument that is not a length *)

(** C9.  In [new View(buffer, byteOffset, length)], a [length] that unary
    plus does not turn into a non-negative number becomes 0: the view has
    [length = 0] and [byteLength = 0], and the constructor raises nothing of
    its own (it returns whenever [asMemory] does). *)
Theorem invalid_length_is_zero
    (T : TypedArrayConstructor) (src : source) (off len : value)
    (w w' : World) (f : layout) :
  uncoercible len ->
  asMemory src T w = Some (w', f) ->
  new T src (Some (off, Some len)) w =
  Some (w', MemoryView.mk T (l_buffer f) (nonneg_or_zero off) 0 0 []).
Proof.
  intros Hu Hf. unfold new. rewrite (bind_Some _ _ _ _ _ Hf).
  assert (nonneg_or_zero len = 0) as ->.
  { unfold uncoercible, nonneg_or_zero in *.
    destruct (ToNumber len) as [|z]; [reflexivity|].
    destruct (Z.eqb_spec (Z.max z 0) 0); lia. }
  reflexivity.
Qed.

Lemma invalid_length_is_zero_witness :
  let m := Memory.mk 0 16 16 in
  new Int32Array (SMemory m) (Some (VNumber (Num 4), Some VUndefined)) initial_world =
  Some (initial_world, MemoryView.mk Int32Array m 4 0 0 []).
Proof.
  intros m.
  exact (invalid_length_is_zero Int32Array (SMemory m) (VNumber (Num 4)) VUndefined
           initial_world initial_world (mk_layout m 16 0 4) I eq_refl).
Defined.

(** ** Indexed access *)

Lemma own_property_put_own (p q : property_key) (x : Z) (v : MemoryView.t) :
  own_property q (put_own p x v) =
  if property_key_eqb p q then Some x else own_property q v.
Proof.
  assert (Htrans : forall a b c, property_key_eqb a b = true ->
                                 property_key_eqb a c = property_key_eqb b c).
  { intros [a|a] [b|b] c; cbn; try discriminate.
    - intros ->%Z.eqb_eq. reflexivity.
    - intros ->%String.eqb_eq. reflexivity. }
  unfold own_property, put_own. cbn [own find fst].
  destruct (property_key_eqb p q) eqn:Hpq; [reflexivity|].
  f_equal. induction (own v) as [|[k y] l IH]; [reflexivity|].
  cbn [filter find fst].
  destruct (property_key_eqb k p) eqn:Hkp; cbn [negb].
  - rewrite (Htrans k p q Hkp), Hpq. exact IH.
  - cbn [find fst]. destruct (property_key_eqb k q); [reflexivity|exact IH].
Qed.

(** C8, as the code has it.  For an index below 0 or not below the length
    nothing is raised and nothing is copied: the world, and with it every
    byte of device memory, is as before, and the view keeps its buffer,
    offset and lengths.  The [get] trap returns [undefined], so [v[i]] is
    [undefined] as long as the object has no own property under the index.
    The write [v[i] = x] is no no-op on the object: line 265 hands it to
    [Reflect.set], the value becomes the own property under the index (the
    others stay), and [v[i]] then gives the value back. *)
Theorem out_of_range_access (v : MemoryView.t) (i x : Z) (w : World) :
  i < 0 \/ length v <= i ->
  get (Index i) v w = Some (w, (v, Undefined)) /\
  indexed_read v i w = Some (w, (v, own_property (Index i) v)) /\
  exists v',
    set_ (Index i) x v w = Some (w, (v', true)) /\
    indexed_write v i x w = Some (w, v') /\
    buffer v' = buffer v /\ byteOffset v' = byteOffset v /\
    byteLength v' = byteLength v /\ length v' = length v /\
    own_property (Index i) v' = Some x /\
    (forall j, j <> i -> own_property (Index j) v' = own_property (Index j) v) /\
    indexed_read v' i w = Some (w, (v', Some x)).
Proof.
  intros Hi.
  assert ((-1 <? i) && (i <? length v) = false) as Hr.
  { destruct (Z.ltb_spec (-1) i); destruct (Z.ltb_spec i (length v)); cbn; lia. }
  assert (Hget : get (Index i) v w = Some (w, (v, Undefined))).
  { unfold get. now rewrite Hr. }
  assert (Hset : set_ (Index i) x v w = Some (w, (put_own (Index i) x v, true))).
  { unfold set_. rewrite Hr. reflexivity. }
  assert (Hown : own_property (Index i) (put_own (Index i) x v) = Some x).
  { rewrite own_property_put_own. cbn. now rewrite Z.eqb_refl. }
  split; [exact Hget|]. split.
  - unfold indexed_read. destruct (own_property (Index i) v); [reflexivity|].
    unfold bind. rewrite Hget. reflexivity.
  - exists (put_own (Index i) x v). split; [exact Hset|]. split.
    + unfold indexed_write. destruct (own_property (Index i) v); [reflexivity|].
      unfold bind. rewrite Hset. reflexivity.
    + repeat (split; [reflexivity|]). split; [exact Hown|]. split.
      * intros j Hj. rewrite own_property_put_own. cbn.
        destruct (Z.eqb_spec i j); [congruence|reflexivity].
      * unfold indexed_read. rewrite Hown. reflexivity.
Qed.

Lemma out_of_range_access_witness :
  let v := MemoryView.mk Int32Array (Memory.mk 0 12 12) 0 12 3 [] in
  get (Index 100) v initial_world = Some (initial_world, (v, Undefined)) /\
  indexed_read v 100 initial_world = Some (initial_world, (v, None)).
Proof.
  intros v.
  destruct (out_of_range_access v 100 7 initial_world ltac:(right; cbn; lia))
    as (Hg & Hr & _).
  split; [exact Hg|exact Hr].
Defined.

(** C8 as stated fails: on a view of three elements the write [v[100] = 7]
    changes the view object, and the read [v[100]] after it gives 7, not
    [undefined]. *)
Lemma out_of_range_write_is_read_back :
  exists w v v',
    new Int32Array (SIterable [1; 2; 3]) None initial_world = Some (w, v) /\
    length v = 3 /\
    indexed_read v 100 w = Some (w, (v, None)) /\
    indexed_write v 100 7 w = Some (w, v') /\
    v' <> v /\
    indexed_read v' 100 w = Some (w, (v', Some 7)).
Proof.
  eexists _, _, _. split; [vm_compute; reflexivity|].
  split; [reflexivity|]. split; [reflexivity|]. split; [reflexivity|].
  split; [discriminate|reflexivity].
Qed.

(** What the [set] trap does keep of a write outside the view: the value
    becomes an own property of the view object. *)
Lemma out_of_range_write_is_kept (v : MemoryView.t) (i x : Z) (w : World) :
  i < 0 \/ length v <= i ->
  exists v', set_ (Index i) x v w = Some (w, (v', true)) /\ In (Index i, x) (own v').
Proof.
  intros Hi.
  assert ((-1 <? i) && (i <? length v) = false) as Hr.
  { destruct (Z.ltb_spec (-1) i); destruct (Z.ltb_spec i (length v)); cbn; lia. }
  unfold set_. rewrite Hr. unfold Reflect_set, ret.
  eexists. split; [reflexivity|]. cbn [own]. now left.
Qed.

(** ** The copy primitive *)

Lemma cudaMemcpy_to_host (e : list byte) (a n : Z) (w : World) (d : list byte) :
  load (device w) a n = Some d ->
  (List.length d <= List.length e)%nat ->
  cudaMemcpy (HostSpan e) (DeviceSpan a) n w =
  Some (w, HostSpan (d ++ skipn (List.length d) e)).
Proof.
  intros Hl Hle. unfold cudaMemcpy. rewrite Hl.
  rewrite store_Some by lia. reflexivity.
Qed.

Lemma cudaMemcpy_to_device (e : list byte) (a n : Z) (w : World) (d m' : list byte) :
  load e 0 n = Some d ->
  store (device w) a d = Some m' ->
  cudaMemcpy (DeviceSpan a) (HostSpan e) n w = Some (mk_world m' (E w), DeviceSpan a).
Proof. intros Hl Hs. unfold cudaMemcpy. now rewrite Hl, Hs. Qed.

Lemma cudaMemcpy_on_device (a b n : Z) (w : World) (d m' : list byte) :
  load (device w) b n = Some d ->
  store (device w) a d = Some m' ->
  cudaMemcpy (DeviceSpan a) (DeviceSpan b) n w = Some (mk_world m' (E w), DeviceSpan a).
Proof. intros Hl Hs. unfold cudaMemcpy. now rewrite Hl, Hs. Qed.

(** ** Indexed access inside the view *)

Lemma with_byteOffset_restore (v : MemoryView.t) (o : Z) :
  with_byteOffset (with_byteOffset v o) (byteOffset v) = v.
Proof. destruct v; reflexivity. Qed.

(** The traps give the receiver back with the fields it had. *)
Lemma get_fields (u : MemoryView.t) (p : property_key) (w w' : World) (v : MemoryView.t) (r : got) :
  get p u w = Some (w', (v, r)) -> v = u.
Proof.
  unfold get. destruct p as [i|s]; [|now intros [= _ <- _]].
  destruct ((-1 <? i) && (i <? length u)); [|now intros [= _ <- _]].
  intros H.
  apply bind_inv in H as (w1 & e & _ & H).
  apply bind_inv in H as (w2 & sp & _ & H).
  apply bind_inv in H as (w3 & [] & _ & H).
  injection H as _ <- _. apply with_byteOffset_restore.
Qed.

Lemma set__fields (u : MemoryView.t) (p : property_key) (x : Z) (w w' : World)
    (v : MemoryView.t) (r : bool) :
  set_ p x u w = Some (w', (v, r)) ->
  TypedArray v = TypedArray u /\ buffer v = buffer u /\ byteOffset v = byteOffset u /\
  byteLength v = byteLength u /\ length v = length u.
Proof.
  assert (HR : Reflect_set p x u w = Some (w', (v, r)) ->
               TypedArray v = TypedArray u /\ buffer v = buffer u /\
               byteOffset v = byteOffset u /\ byteLength v = byteLength u /\
               length v = length u).
  { unfold Reflect_set, ret. intros [= _ <- _]. cbn. auto. }
  unfold set_. destruct p as [i|s]; [|exact HR].
  destruct ((-1 <? i) && (i <? length u)); [|exact HR].
  intros H.
  apply bind_inv in H as (w1 & e & _ & H).
  apply bind_inv in H as (w2 & [] & _ & H).
  apply bind_inv in H as (w3 & sp & _ & H).
  injection H as _ <- _. rewrite with_byteOffset_restore. auto.
Qed.

Lemma element_in_device (v : MemoryView.t) (i : Z) (w : World) :
  0 <= i < length v -> whole_elements v -> in_device w v ->
  0 <= element_address v i /\
  element_address v i + BYTES_PER_ELEMENT (TypedArray v) <= Z.of_nat (List.length (device w)).
Proof.
  unfold whole_elements, in_device, element_address.
  pose proof (BYTES_PER_ELEMENT_pos (TypedArray v)). intros Hi Hw [Hlo Hhi].
  split; nia.
Qed.

Lemma index_in_range (v : MemoryView.t) (i : Z) :
  0 <= i < length v -> (-1 <? i) && (i <? length v) = true.
Proof.
  intros Hi. destruct (Z.ltb_spec (-1) i); destruct (Z.ltb_spec i (length v)); cbn; lia.
Qed.

Lemma get_in_range (v : MemoryView.t) (i : Z) (w : World) :
  0 <= i < length v -> whole_elements v -> in_device w v -> staging_ok w ->
  exists d,
    load (device w) (element_address v i) (BYTES_PER_ELEMENT (TypedArray v)) = Some d /\
    get (Index i) v w =
    Some (mk_world (device w) (d ++ skipn (List.length d) (E w)),
          (v, Element (decode (TypedArray v) d))).
Proof.
  intros Hi Hw Hd He.
  destruct (element_in_device v i w Hi Hw Hd) as [Hlo Hhi].
  pose proof (BYTES_PER_ELEMENT_pos (TypedArray v)) as Hp.
  pose proof (BYTES_PER_ELEMENT_le_8 (TypedArray v)) as H8.
  pose proof (load_Some (device w) _ _ Hlo (Z.lt_le_incl _ _ Hp) Hhi) as Hload.
  remember (firstn (Z.to_nat (BYTES_PER_ELEMENT (TypedArray v)))
              (skipn (Z.to_nat (element_address v i)) (device w))) as d eqn:Ed.
  clear Ed. exists d. split; [exact Hload|].
  pose proof (length_load _ _ _ _ Hload) as Hlen.
  unfold get. rewrite (index_in_range v i Hi).
  unfold bind at 1. unfold get_E.
  erewrite bind_Some.
  2:{ apply cudaMemcpy_to_host.
      - cbn [with_byteOffset TypedArray buffer byteOffset]. exact Hload.
      - rewrite Hlen. unfold staging_ok in He. lia. }
  cbn [host_bytes]. unfold bind, put_E, ret.
  rewrite with_byteOffset_restore. do 3 f_equal.
  unfold elem_bytes. cbn [Nat.mul skipn TypedArray with_byteOffset].
  rewrite <- Hlen, firstn_app, firstn_all, Nat.sub_diag. cbn [firstn].
  now rewrite app_nil_r.
Qed.

Lemma set_in_range (v : MemoryView.t) (i x : Z) (w : World) :
  0 <= i < length v -> whole_elements v -> in_device w v ->
  exists m',
    store (device w) (element_address v i) (encode (TypedArray v) x) = Some m' /\
    set_ (Index i) x v w =
    Some (mk_world m'
            (encode (TypedArray v) x ++
             skipn (Z.to_nat (BYTES_PER_ELEMENT (TypedArray v))) (E w)),
          (v, true)).
Proof.
  intros Hi Hw Hd.
  destruct (element_in_device v i w Hi Hw Hd) as [Hlo Hhi].
  pose proof (BYTES_PER_ELEMENT_pos (TypedArray v)) as Hp.
  pose proof (length_encode (TypedArray v) x) as Hlen.
  assert (Hst : store (device w) (element_address v i) (encode (TypedArray v) x) =
                Some (firstn (Z.to_nat (element_address v i)) (device w) ++
                      encode (TypedArray v) x ++
                      skipn (Z.to_nat (element_address v i) +
                             List.length (encode (TypedArray v) x)) (device w))).
  { apply store_Some; [lia|]. rewrite Hlen. lia. }
  eexists. split; [exact Hst|].
  unfold set_. rewrite (index_in_range v i Hi).
  unfold bind at 1. unfold get_E.
  unfold bind at 1. unfold put_E.
  erewrite bind_Some.
  2:{ eapply cudaMemcpy_to_device.
      - cbn [with_byteOffset TypedArray].
        rewrite load_Some; rewrite ?length_app, ?Hlen; try lia.
        cbn [Z.to_nat skipn].
        rewrite <- Hlen, firstn_app, firstn_all, Nat.sub_diag. cbn [firstn].
        rewrite app_nil_r. reflexivity.
      - cbn [device with_byteOffset TypedArray buffer byteOffset]. exact Hst. }
  unfold ret. rewrite with_byteOffset_restore. reflexivity.
Qed.

(** C10.  An indexed read or write inside the view returns with the view as
    it was before the access, whenever it returns: the byte offset, advanced
    by [i * BYTES_PER_ELEMENT] for the copy, is put back, and the buffer and
    the lengths are not touched.  On a view that lies in device memory the
    access does return: the read decodes the bytes at the element's address
    and the write stores the encoded value there. *)
Theorem indexed_access_restores_view (v : MemoryView.t) (i x : Z) (w : World) :
  0 <= i < length v ->
  (forall w' v' r, get (Index i) v w = Some (w', (v', r)) -> v' = v) /\
  (forall w' v' r, set_ (Index i) x v w = Some (w', (v', r)) -> v' = v) /\
  (whole_elements v -> in_device w v -> staging_ok w ->
   (exists w1 d,
       get (Index i) v w = Some (w1, (v, Element (decode (TypedArray v) d))) /\
       load (device w) (element_address v i) (BYTES_PER_ELEMENT (TypedArray v)) = Some d /\
       device w1 = device w) /\
   (exists w2,
       set_ (Index i) x v w = Some (w2, (v, true)) /\
       store (device w) (element_address v i) (encode (TypedArray v) x) =
         Some (device w2))).
Proof.
  intros Hi. split; [|split].
  - intros w' v' r H. exact (get_fields _ _ _ _ _ _ H).
  - intros w' v' r. unfold set_. rewrite (index_in_range v i Hi). intros H.
    apply bind_inv in H as (w1 & e & _ & H).
    apply bind_inv in H as (w2 & [] & _ & H).
    apply bind_inv in H as (w3 & sp & _ & H).
    injection H as _ <- _. apply with_byteOffset_restore.
  - intros Hw Hd He. split.
    + destruct (get_in_range v i w Hi Hw Hd He) as (d & Hload & Hget).
      eexists _, d. split; [exact Hget|]. split; [exact Hload|reflexivity].
    + destruct (set_in_range v i x w Hi Hw Hd) as (m' & Hst & Hset).
      eexists. split; [exact Hset|exact Hst].
Qed.

Lemma indexed_access_restores_view_witness :
  let v := MemoryView.mk Int32Array (Memory.mk 0 12 12) 0 12 3 [] in
  let w := mk_world (repeat x00 12) (repeat x00 8) in
  exists w2, set_ (Index 1) 7 v w = Some (w2, (v, true)).
Proof.
  intros v w.
  destruct (indexed_access_restores_view v 1 7 w ltac:(cbn; lia)) as (_ & _ & H).
  destruct (H eq_refl ltac:(cbv; split; discriminate) eq_refl) as [_ (w2 & Hset & _)].
  exists w2. exact Hset.
Defined.

(** ** Sub-views *)

Lemma nonneg_or_zero_Num (z : Z) : 0 <= z -> nonneg_or_zero (VNumber (Num z)) = z.
Proof.
  intros Hz. unfold nonneg_or_zero. cbn [ToNumber].
  destruct (Z.eqb_spec (Z.max z 0) 0); lia.
Qed.

Lemma subarray_eq (v : MemoryView.t) (a b : option Z) (w : World) :
  0 <= length v -> 0 <= byteOffset v ->
  let s := fst (clamp (length v) a b) in
  let e := snd (clamp (length v) a b) in
  subarray v a b w =
  Some (w, MemoryView.mk (TypedArray v) (buffer v)
             (byteOffset v + s * BYTES_PER_ELEMENT (TypedArray v))
             ((e - s) * BYTES_PER_ELEMENT (TypedArray v)) (e - s) []).
Proof.
  intros Hl Ho s e.
  pose proof (clamp_bounds (length v) a b Hl) as [Hs He]. fold s e in Hs, He.
  pose proof (BYTES_PER_ELEMENT_pos (TypedArray v)) as Hp.
  unfold subarray. destruct (clamp (length v) a b) as [s' e'] eqn:Hc.
  cbn [fst snd] in s, e. subst s e.
  unfold new, asMemory, bind, ret. cbn [l_buffer MemoryView.buffer MemoryView.own].
  rewrite !nonneg_or_zero_Num by nia. reflexivity.
Qed.

(** C4.  For [0 <= start <= end <= v.length], [v.subarray(start, end)] is a
    view of [end - start] elements on the very handle of [v], its byte
    offset advanced by [start * BYTES_PER_ELEMENT]; nothing is copied, and a
    write to element [j] of the sub-view stores the value at the address of
    element [start + j] of [v], where [v] reads it back. *)
Theorem subarray_aliases (v : MemoryView.t) (start end_ : Z) (w : World) :
  0 <= start <= end_ -> end_ <= length v -> 0 <= byteOffset v ->
  let B := BYTES_PER_ELEMENT (TypedArray v) in
  let s := MemoryView.mk (TypedArray v) (buffer v) (byteOffset v + start * B)
             ((end_ - start) * B) (end_ - start) [] in
  subarray v (Some start) (Some end_) w = Some (w, s) /\
  forall j x,
    0 <= j < end_ - start -> whole_elements v -> in_device w v -> staging_ok w ->
    exists w1 w2,
      set_ (Index j) x s w = Some (w1, (s, true)) /\
      store (device w) (element_address v (start + j)) (encode (TypedArray v) x) =
        Some (device w1) /\
      get (Index (start + j)) v w1 = Some (w2, (v, Element (to_elem (TypedArray v) x))).
Proof.
  intros Hs He Ho B s.
  pose proof (BYTES_PER_ELEMENT_pos (TypedArray v)) as Hp. fold B in Hp.
  split.
  - rewrite subarray_eq by lia. rewrite clamp_inside by lia. reflexivity.
  - intros j x Hj Hw Hd Hst.
    assert (Hws : whole_elements s) by reflexivity.
    assert (Hds : in_device w s).
    { unfold in_device, whole_elements in *. subst s. cbn. fold B in Hw |- *.
      destruct Hd as [Hlo Hhi]. split; nia. }
    destruct (set_in_range s j x w Hj Hws Hds) as (m' & Hstore & Hset).
    assert (Ha : element_address s j = element_address v (start + j)).
    { unfold element_address. subst s. cbn. fold B. lia. }
    rewrite Ha in Hstore. cbn [TypedArray s] in Hstore, Hset.
    pose proof (length_store _ _ _ _ Hstore) as Hlm.
    set (w1 := mk_world m' _) in Hset.
    assert (Hd1 : in_device w1 v).
    { unfold in_device in *. cbn [device w1]. rewrite Hlm. exact Hd. }
    assert (Hst1 : staging_ok w1).
    { unfold staging_ok in *. cbn [E w1].
      rewrite length_app, length_encode, length_skipn, Hst.
      pose proof (BYTES_PER_ELEMENT_le_8 (TypedArray v)). lia. }
    destruct (get_in_range v (start + j) w1 ltac:(lia) Hw Hd1 Hst1) as (d & Hload & Hget).
    cbn [device w1] in Hload.
    pose proof (load_store_same _ _ _ _ Hstore) as Hback.
    rewrite length_encode, Z2Nat.id in Hback by lia.
    rewrite Hback in Hload. injection Hload as <-.
    rewrite decode_encode in Hget.
    eexists w1, _. split; [exact Hset|]. split; [exact Hstore|exact Hget].
Qed.

Lemma subarray_aliases_witness :
  let v := MemoryView.mk Int32Array (Memory.mk 0 12 12) 0 12 3 [] in
  let s := MemoryView.mk Int32Array (Memory.mk 0 12 12) 4 8 2 [] in
  let w := mk_world (repeat x00 12) (repeat x00 8) in
  subarray v (Some 1) (Some 3) w = Some (w, s) /\
  exists w1 w2,
    set_ (Index 0) (-7) s w = Some (w1, (s, true)) /\
    get (Index 1) v w1 = Some (w2, (v, Element (-7))).
Proof.
  intros v s w.
  destruct (subarray_aliases v 1 3 w ltac:(lia) ltac:(cbn; lia) ltac:(cbn; lia))
    as [Hsub Halias].
  split; [exact Hsub|].
  destruct (Halias 0 (-7) ltac:(lia) eq_refl ltac:(cbv; split; discriminate) eq_refl)
    as (w1 & w2 & Hset & _ & Hget).
  exists w1, w2. split; [exact Hset|exact Hget].
Defined.

(** ** Construction *)

Lemma allocateMemory_Some (n : Z) (w : World) :
  0 <= n ->
  allocateMemory n w =
  Some (mk_world (device w ++ repeat x00 (Z.to_nat n)) (E w),
        Memory.mk (Z.of_nat (List.length (device w))) n n).
Proof. intros Hn. unfold allocateMemory. destruct (Z.ltb_spec n 0); [lia|reflexivity]. Qed.

Lemma allocateMemory_inv (n : Z) (w w' : World) (m : Memory.t) :
  allocateMemory n w = Some (w', m) ->
  0 <= n /\ m = Memory.mk (Z.of_nat (List.length (device w))) n n /\
  w' = mk_world (device w ++ repeat x00 (Z.to_nat n)) (E w).
Proof.
  unfold allocateMemory. destruct (Z.ltb_spec n 0); [discriminate|].
  intros [= <- <-]. auto.
Qed.

Lemma asMemory_upload (T : TypedArrayConstructor) (src : source) (b : list byte) (w : World) :
  uploaded T src = Some b ->
  let n := Z.of_nat (List.length b) in
  asMemory src T w =
  Some (mk_world (device w ++ b) (E w),
        mk_layout (Memory.mk (Z.of_nat (List.length (device w))) n n) n 0
          (n / BYTES_PER_ELEMENT T)).
Proof.
  intros Hu n.
  assert (Hup :
    (buffer <- allocateMemory n ;;
     cudaMemcpy (DeviceSpan (Memory.ptr buffer)) (HostSpan b) n ;;;
     ret (mk_layout buffer n 0 (n / BYTES_PER_ELEMENT T))) w =
    Some (mk_world (device w ++ b) (E w),
          mk_layout (Memory.mk (Z.of_nat (List.length (device w))) n n) n 0
            (n / BYTES_PER_ELEMENT T))).
  { erewrite bind_Some by (apply allocateMemory_Some; lia).
    erewrite bind_Some.
    2:{ eapply cudaMemcpy_to_device; [apply load_all|].
        cbn [device Memory.ptr]. subst n. rewrite Nat2Z.id. apply store_fresh. }
    reflexivity. }
  destruct src; cbn in Hu; try discriminate; injection Hu as <-; exact Hup.
Qed.

Lemma length_concat_encode (T : TypedArrayConstructor) (xs : list Z) :
  Z.of_nat (List.length (concat (map (encode T) xs))) =
  Z.of_nat (List.length xs) * BYTES_PER_ELEMENT T.
Proof.
  pose proof (BYTES_PER_ELEMENT_pos T).
  induction xs as [|x xs IH]; [reflexivity|].
  cbn [map concat List.length]. rewrite length_app, length_encode. lia.
Qed.

Lemma asMemory_single (T : TypedArrayConstructor) (src : source) (w w' : World) (f : layout) :
  asMemory src T w = Some (w', f) ->
  l_length f = l_byteLength f / BYTES_PER_ELEMENT T /\
  l_byteOffset f = match src with SViewLike _ o _ => o | _ => 0 end.
Proof.
  intros H.
  destruct (uploaded T src) as [b|] eqn:Hu.
  - rewrite (asMemory_upload T src b w Hu) in H. injection H as <- <-.
    split; [reflexivity|]. destruct src; try discriminate; reflexivity.
  - destruct src; try discriminate; cbn in H; unfold ret in H.
    all: try (apply bind_inv in H as (w1 & m & _ & H)).
    all: injection H as <- <-; auto.
Qed.

Lemma asMemory_whole (T : TypedArrayConstructor) (src : source) (w w' : World) (f : layout) :
  whole_source T src ->
  asMemory src T w = Some (w', f) ->
  l_byteLength f = l_length f * BYTES_PER_ELEMENT T.
Proof.
  intros Hs H.
  pose proof (BYTES_PER_ELEMENT_pos T) as Hp.
  destruct (asMemory_single T src w w' f H) as [Hlen _].
  assert (Hmod : l_byteLength f mod BYTES_PER_ELEMENT T = 0).
  { destruct (uploaded T src) as [b|] eqn:Hu.
    - rewrite (asMemory_upload T src b w Hu) in H. injection H as <- <-.
      cbn [l_byteLength].
      destruct src; cbn in Hu; try discriminate; injection Hu as <-;
        try exact Hs; cbn [ta_of_values ta_bytes];
        rewrite length_concat_encode; apply Z.mod_mul; lia.
    - destruct src; try discriminate; cbn in H; unfold ret in H.
      all: try (apply bind_inv in H as (w1 & m & _ & H)).
      all: injection H as <- <-; cbn [l_byteLength]; try exact Hs.
      + apply Z.mod_mul; lia.
      + reflexivity. }
  rewrite Hlen, Z.mul_comm. apply Z.div_exact; [lia|exact Hmod].
Qed.

Lemma new_single (T : TypedArrayConstructor) (src : source) (w : World) :
  new T src None w =
  match asMemory src T w with
  | Some (w', f) =>
      Some (w', MemoryView.mk T (l_buffer f) (l_byteOffset f) (l_byteLength f) (l_length f) [])
  | None => None
  end.
Proof. unfold new, bind. destruct (asMemory src T w) as [[w' f]|]; reflexivity. Qed.

Lemma sound_of_size (T : TypedArrayConstructor) (m : Memory.t) :
  0 <= Memory.byteLength m <= Memory.capacity m ->
  sound (MemoryView.mk T m 0 (Memory.byteLength m)
           (Memory.byteLength m / BYTES_PER_ELEMENT T) []).
Proof.
  intros Hm. pose proof (BYTES_PER_ELEMENT_pos T) as Hp.
  unfold sound, within_capacity. cbn.
  pose proof (Z.mul_div_le (Memory.byteLength m) _ Hp).
  pose proof (Z.div_pos (Memory.byteLength m) _ (proj1 Hm) Hp).
  repeat split; lia.
Qed.

Lemma new_fits_sound (T : TypedArrayConstructor) (src : source) (w w' : World) (v : MemoryView.t) :
  fits src -> new T src None w = Some (w', v) -> sound v.
Proof.
  intros Hf H. rewrite new_single in H.
  destruct (uploaded T src) as [b|] eqn:Hu.
  - rewrite (asMemory_upload T src b w Hu) in H. injection H as <- <-.
    apply (sound_of_size T (Memory.mk _ _ _)). cbn. lia.
  - destruct src; try discriminate; try contradiction; cbn in H; unfold bind, ret in H.
    + destruct (allocateMemory _ w) as [[w1 m]|] eqn:Ha; [|discriminate].
      apply allocateMemory_inv in Ha as (Hn & -> & ->). injection H as <- <-.
      pose proof (BYTES_PER_ELEMENT_pos T).
      replace n with (n * BYTES_PER_ELEMENT T / BYTES_PER_ELEMENT T)
        by (apply Z.div_mul; lia).
      rewrite Z.div_mul by lia.
      apply (sound_of_size T (Memory.mk _ _ _)). cbn. lia.
    + injection H as <- <-. apply sound_of_size. exact Hf.
    + injection H as <- <-. unfold sound, within_capacity. cbn. lia.
Qed.

Lemma slice_eq (v : MemoryView.t) (a b : option Z) (w : World) :
  let s := fst (clamp (length v) a b) in
  let e := snd (clamp (length v) a b) in
  let m := Memory.slice (buffer v)
             (byteOffset v + s * BYTES_PER_ELEMENT (TypedArray v))
             (byteOffset v + e * BYTES_PER_ELEMENT (TypedArray v)) in
  slice v a b w =
  Some (w, MemoryView.mk (TypedArray v) m 0 (Memory.byteLength m)
             (Memory.byteLength m / BYTES_PER_ELEMENT (TypedArray v)) []).
Proof.
  intros s e m. unfold slice. subst m s e.
  destruct (clamp (length v) a b) as [s e]. reflexivity.
Qed.

Lemma Memory_slice_size (m : Memory.t) (lo hi : Z) :
  0 <= Memory.byteLength (Memory.slice m lo hi) <= Memory.capacity (Memory.slice m lo hi).
Proof.
  unfold Memory.slice, clampSliceArgs. cbn. split_ltb; lia.
Qed.

Lemma fill_this (u : MemoryView.t) (x : Z) (a b : option Z) (w w' : World) (v : MemoryView.t) :
  fill u x a b w = Some (w', v) -> v = u.
Proof.
  unfold fill. destruct (clamp (length u) a b) as [s e].
  destruct (ta_new _ _) as [t|]; [|discriminate].
  intros H. apply bind_inv in H as (w1 & [] & _ & H). now injection H.
Qed.

Lemma copyFrom_this (u : MemoryView.t) (src : source) (a : option Z) (w w' : World)
    (v : MemoryView.t) :
  copyFrom u src a w = Some (w', v) -> v = u.
Proof.
  unfold copyFrom. intros H. apply bind_inv in H as (w1 & [] & _ & H). now injection H.
Qed.

Lemma established_sound (v : MemoryView.t) : established v -> sound v.
Proof.
  induction 1 as [T src w w' v Hf Hn | T m off len w w' v Ho Hl Hc Hn
                 | u a b w w' v _ IH Hs | u a b w w' v _ IH Hs
                 | u x a b w w' v _ IH Hf | u src a w w' v _ IH Hc
                 | u p w w' v r _ IH Hg | u p x w w' v r _ IH Hs].
  - exact (new_fits_sound T src w w' v Hf Hn).
  - unfold new, asMemory, bind, ret in Hn. rewrite !nonneg_or_zero_Num in Hn by lia.
    injection Hn as _ <-. unfold sound, within_capacity. cbn. repeat split; lia.
  - destruct IH as (Hcap & Ho & Hl & Hb).
    pose proof (clamp_bounds (length u) a b Hl) as [Hs1 He1].
    rewrite subarray_eq in Hs by assumption.
    destruct (clamp (length u) a b) as [s e]. cbn [fst snd] in *.
    injection Hs as _ <-.
    pose proof (BYTES_PER_ELEMENT_pos (TypedArray u)) as Hp.
    assert (e * BYTES_PER_ELEMENT (TypedArray u) <=
            length u * BYTES_PER_ELEMENT (TypedArray u))
      by (apply Z.mul_le_mono_nonneg_r; lia).
    assert (0 <= s * BYTES_PER_ELEMENT (TypedArray u)) by (apply Z.mul_nonneg_nonneg; lia).
    unfold sound, within_capacity in *.
    cbn [byteOffset byteLength length buffer TypedArray]. repeat split; lia.
  - rewrite slice_eq in Hs. injection Hs as _ <-.
    apply sound_of_size, Memory_slice_size.
  - now rewrite (fill_this _ _ _ _ _ _ _ Hf).
  - now rewrite (copyFrom_this _ _ _ _ _ _ Hc).
  - now rewrite (get_fields _ _ _ _ _ _ Hg).
  - destruct (set__fields _ _ _ _ _ _ _ Hs) as (HT & Hb & Ho & Hbl & Hl).
    unfold sound, within_capacity in *. rewrite HT, Hb, Ho, Hbl, Hl. exact IH.
Qed.

(** C1, as the code has it.  The bound
    [byteOffset + byteLength <= buffer.capacity] holds for every view that
    is constructed from one argument that is a length, host data or a handle
    whose size is within its capacity, or from three arguments whose offset
    and length fit the capacity of the handle, and for every view that
    [subarray], [slice], [fill], [copyFrom] and the two traps give back from
    such a view.  The constructor does not check the bound itself. *)
Theorem established_within_capacity (v : MemoryView.t) :
  established v -> within_capacity v.
Proof. intros H. exact (proj1 (established_sound v H)). Qed.

Lemma established_within_capacity_witness :
  within_capacity (MemoryView.mk Int32Array (Memory.mk 0 12 12) 4 8 2 []).
Proof.
  apply established_within_capacity.
  apply (est_subarray (MemoryView.mk Int32Array (Memory.mk 0 12 12) 0 12 3 [])
           (Some 1) None (mk_world (repeat x00 12) (repeat x00 8))
           (mk_world (repeat x00 12) (repeat x00 8))); [|reflexivity].
  apply (est_new Int32Array (SNumber 3) initial_world
           (mk_world (repeat x00 12) (repeat x00 8))); [exact I|reflexivity].
Defined.

(** C1 as stated fails: the three-argument constructor takes any offset and
    length.  On a fresh handle of 8 bytes, [new Uint8Buffer(m, 4, 100)] has
    [byteOffset + byteLength = 104], above the capacity 8. *)
Lemma constructor_exceeds_capacity :
  exists w v,
    (m <- allocateMemory 8 ;;
     new Uint8Array (SMemory m) (Some (VNumber (Num 4), Some (VNumber (Num 100)))))
      initial_world = Some (w, v) /\
    byteOffset v + byteLength v = 104 /\
    Memory.capacity (buffer v) = 8 /\
    ~ within_capacity v.
Proof.
  eexists _, _. split; [vm_compute; reflexivity|].
  split; [reflexivity|]. split; [reflexivity|].
  unfold within_capacity. cbn. lia.
Qed.

(** C2, as the code has it.  Single-argument construction from anything but
    a negative length returns a view; when the byte length of the source is
    a multiple of the element size, its length is the exact quotient
    [byteLength / BYTES_PER_ELEMENT].  Its byte offset is 0 unless the
    source is an object that only has the shape of a view ([buffer],
    [byteOffset], [byteLength]), whose own offset is kept; from another
    [MemoryView] the byte length is the source's, so the length is the
    source's when the element sizes agree. *)
Theorem single_argument_construction
    (T : TypedArrayConstructor) (src : source) (w : World) :
  (forall n, src = SNumber n -> 0 <= n) ->
  whole_source T src ->
  exists w' v,
    new T src None w = Some (w', v) /\
    byteLength v = length v * BYTES_PER_ELEMENT T /\
    length v = byteLength v / BYTES_PER_ELEMENT T /\
    byteOffset v = match src with SViewLike _ o _ => o | _ => 0 end /\
    match src with
    | SView u =>
        byteLength v = byteLength u /\
        (whole_elements u -> BYTES_PER_ELEMENT (TypedArray u) = BYTES_PER_ELEMENT T ->
         length v = length u)
    | _ => True
    end.
Proof.
  intros Hn Hs. rewrite new_single.
  pose proof (BYTES_PER_ELEMENT_pos T) as Hp.
  assert (Hex : exists w' f, asMemory src T w = Some (w', f) /\
                match src with
                | SView u => l_byteLength f = byteLength u
                | _ => True
                end).
  { destruct (uploaded T src) as [b|] eqn:Hu.
    - eexists _, _. split; [exact (asMemory_upload T src b w Hu)|].
      destruct src; try discriminate; exact I.
    - destruct src; try discriminate; cbn; unfold bind, ret.
      + rewrite allocateMemory_Some by (specialize (Hn n eq_refl); nia).
        eexists _, _. split; [reflexivity|exact I].
      + eexists _, _. split; [reflexivity|reflexivity].
      + eexists _, _. split; [reflexivity|exact I].
      + eexists _, _. split; [reflexivity|exact I].
      + eexists _, _. split; [reflexivity|exact I]. }
  destruct Hex as (w' & f & Hf & Hv). rewrite Hf.
  destruct (asMemory_single T src w w' f Hf) as [Hlen Hoff].
  pose proof (asMemory_whole T src w w' f Hs Hf) as Hwhole.
  eexists _, _. split; [reflexivity|]. cbn [length byteLength byteOffset].
  split; [exact Hwhole|]. split; [exact Hlen|]. split; [exact Hoff|].
  destruct src; try exact I. split; [exact Hv|].
  intros Hw HB. rewrite Hlen, Hv, Hw, HB. apply Z.div_mul. lia.
Qed.

Lemma single_argument_construction_witness :
  let u := MemoryView.mk Int16Array (Memory.mk 0 8 8) 0 8 4 [] in
  exists w' v,
    new Uint16Array (SView u) None initial_world = Some (w', v) /\
    byteLength v = length v * 2 /\
    byteOffset v = 0 /\ length v = length u.
Proof.
  intros u.
  destruct (single_argument_construction Uint16Array (SView u) initial_world
              ltac:(discriminate) eq_refl) as (w' & v & H & Hb & _ & Ho & _ & Hl).
  exists w', v. split; [exact H|]. split; [exact Hb|]. split; [exact Ho|].
  exact (Hl eq_refl eq_refl).
Defined.

(** C2 as stated fails twice: an [Int32Buffer] made from a [Uint8Buffer] of
    8 elements has 2 elements, and a source that has the shape of a view
    keeps its byte offset. *)
Lemma construction_keeps_neither_length_nor_zero_offset :
  (exists w v u,
      (v <- new Uint8Array (SNumber 8) None ;;
       u <- new Int32Array (SView v) None ;;
       ret (v, u)) initial_world = Some (w, (v, u)) /\
      length v = 8 /\ length u = 2) /\
  (exists w u,
      (m <- allocateMemory 8 ;;
       new Uint8Array (SViewLike (Handle m) 4 4) None) initial_world = Some (w, u) /\
      byteOffset u = 4).
Proof.
  split.
  - eexists _, _, _. split; [vm_compute; reflexivity|]. split; reflexivity.
  - eexists _, _. split; [vm_compute; reflexivity|reflexivity].
Qed.

(** ** Reading a view back to the host *)

Lemma toArray_eq (v : MemoryView.t) (w : World) :
  0 <= length v -> 0 <= byteOffset v -> whole_elements v -> in_device w v ->
  toArray v w =
  Some (w, mk_typed_array (TypedArray v)
             (firstn (Z.to_nat (byteLength v))
                (skipn (Z.to_nat (Memory.ptr (buffer v) + byteOffset v)) (device w)))).
Proof.
  intros Hl Ho Hw [Hlo Hhi].
  pose proof (BYTES_PER_ELEMENT_pos (TypedArray v)) as Hp.
  assert (Hb : 0 <= byteLength v) by (rewrite Hw; nia).
  unfold toArray, ta_new. destruct (Z.ltb_spec (length v) 0); [lia|].
  unfold copyInto_view. rewrite clamp_whole by lia.
  rewrite (bind_Some _ _ _ _ _ (subarray_eq v (Some 0) None w Hl Ho)).
  rewrite clamp_from by lia. cbn [fst snd].
  unfold ta_byteLength. cbn [ta_bytes ta_type]. rewrite repeat_length.
  rewrite <- Hw, Z2Nat.id, Z.min_id by lia.
  unfold span_of. cbn [buffer byteOffset].
  replace (Memory.ptr (buffer v) + (byteOffset v + 0 * BYTES_PER_ELEMENT (TypedArray v)))
    with (Memory.ptr (buffer v) + byteOffset v) by lia.
  pose proof (load_Some (device w) _ _ Hlo Hb Hhi) as Hload.
  remember (firstn (Z.to_nat (byteLength v))
              (skipn (Z.to_nat (Memory.ptr (buffer v) + byteOffset v)) (device w)))
    as d eqn:Ed. clear Ed.
  pose proof (length_load _ _ _ _ Hload) as Hlen.
  erewrite bind_Some.
  2:{ apply cudaMemcpy_to_host; [exact Hload|]. rewrite repeat_length. lia. }
  unfold ret. cbn [host_bytes].
  rewrite skipn_all2 by (rewrite repeat_length; lia).
  now rewrite app_nil_r.
Qed.

(** ** Element values *)

Lemma elem_bytes_head (T : TypedArrayConstructor) (b rest : list byte) :
  List.length b = Z.to_nat (BYTES_PER_ELEMENT T) ->
  elem_bytes T (b ++ rest) 0 = b.
Proof.
  intros Hb. unfold elem_bytes. cbn [Nat.mul skipn].
  rewrite <- Hb, firstn_app, firstn_all, Nat.sub_diag. cbn [firstn]. apply app_nil_r.
Qed.

Lemma elem_bytes_cons (T : TypedArrayConstructor) (b rest : list byte) (i : nat) :
  List.length b = Z.to_nat (BYTES_PER_ELEMENT T) ->
  elem_bytes T (b ++ rest) (S i) = elem_bytes T rest i.
Proof.
  intros Hb. unfold elem_bytes. f_equal.
  rewrite skipn_app, skipn_all2 by lia. cbn [app]. f_equal. lia.
Qed.

Lemma values_concat_encode (T : TypedArrayConstructor) (xs : list Z) :
  map (fun i => decode T (elem_bytes T (concat (map (encode T) xs)) i))
      (seq 0 (List.length xs)) =
  map (to_elem T) xs.
Proof.
  induction xs as [|x xs IH]; [reflexivity|].
  cbn [map concat List.length seq].
  rewrite elem_bytes_head, decode_encode by apply length_encode. f_equal.
  rewrite <- seq_shift, map_map. rewrite <- IH.
  apply map_ext. intros i. now rewrite elem_bytes_cons by apply length_encode.
Qed.

Lemma ta_values_of_values (T : TypedArrayConstructor) (xs : list Z) :
  ta_values (ta_of_values T xs) = map (to_elem T) xs.
Proof.
  pose proof (BYTES_PER_ELEMENT_pos T) as Hp.
  unfold ta_values, ta_length, ta_byteLength, ta_of_values. cbn [ta_type ta_bytes].
  rewrite length_concat_encode, Z.div_mul, Nat2Z.id by lia.
  apply values_concat_encode.
Qed.

Lemma map_to_elem_in_range (T : TypedArrayConstructor) (xs : list Z) :
  Forall (in_range T) xs -> map (to_elem T) xs = xs.
Proof.
  induction 1 as [|x xs Hx _ IH]; [reflexivity|].
  cbn [map]. now rewrite to_elem_in_range, IH.
Qed.

(** C3.  A host array of values of the element kind of the view, given to
    the constructor and read back with [toArray], comes back with the same
    element values in the same order (hence the same length); a typed array
    comes back as the very same typed array. *)
Theorem round_trip (T : TypedArrayConstructor) (h : host_array) (w : World) :
  holds T h ->
  exists w1 v w2 r,
    new T (host_source h) None w = Some (w1, v) /\
    toArray v w1 = Some (w2, r) /\
    ta_type r = T /\
    ta_values r = host_values h /\
    match h with
    | Typed a => r = a
    | Plain _ => True
    end.
Proof.
  intros Hh.
  pose proof (BYTES_PER_ELEMENT_pos T) as Hp.
  assert (Hb : exists b,
             uploaded T (host_source h) = Some b /\
             Z.of_nat (List.length b) mod BYTES_PER_ELEMENT T = 0 /\
             ta_values (mk_typed_array T b) = host_values h /\
             match h with
             | Typed a => mk_typed_array T b = a
             | Plain _ => True
             end).
  { destruct h as [a|xs]; cbn in Hh |- *.
    - destruct Hh as [<- Hm]. exists (ta_bytes a).
      assert (mk_typed_array (ta_type a) (ta_bytes a) = a) as -> by now destruct a.
      auto.
    - eexists. split; [reflexivity|]. split; [|split; [|exact I]].
      + unfold ta_of_values. cbn [ta_bytes].
        rewrite length_concat_encode. apply Z.mod_mul. lia.
      + fold (ta_of_values T xs). rewrite ta_values_of_values.
        now apply map_to_elem_in_range. }
  destruct Hb as (b & Hu & Hm & Hv & Hr).
  rewrite new_single, (asMemory_upload T _ b w Hu).
  cbn [l_buffer l_byteOffset l_byteLength l_length].
  set (n := Z.of_nat (List.length b)) in *.
  eexists _, _, _, _. split; [reflexivity|].
  rewrite toArray_eq; cbn [length byteOffset byteLength buffer TypedArray Memory.ptr device].
  - split; [reflexivity|]. cbn [ta_type].
    rewrite Z.add_0_r, !Nat2Z.id, skipn_app, skipn_all, Nat.sub_diag.
    cbn [skipn app]. subst n. rewrite Nat2Z.id, firstn_all.
    split; [reflexivity|]. split; [exact Hv|exact Hr].
  - apply Z.div_pos; lia.
  - lia.
  - unfold whole_elements. cbn [length byteOffset byteLength buffer TypedArray].
    rewrite Z.mul_comm. apply Z.div_exact; lia.
  - unfold in_device. cbn [length byteOffset byteLength buffer TypedArray Memory.ptr device].
    rewrite length_app. lia.
Qed.

Lemma round_trip_witness :
  exists w1 v w2 r,
    new Int32Array (SIterable [1; 2; 3]) None initial_world = Some (w1, v) /\
    toArray v w1 = Some (w2, r) /\
    ta_values r = [1; 2; 3].
Proof.
  destruct (round_trip Int32Array (Plain [1; 2; 3]) initial_world)
    as (w1 & v & w2 & r & Hn & Ht & _ & Hv & _).
  - repeat constructor; cbv; discriminate.
  - exists w1, v, w2, r. auto.
Defined.

(** ** Slices *)

Lemma window_of_window {A : Type} (l : list A) (p n k c : nat) :
  (k + c <= n)%nat ->
  firstn c (skipn k (firstn n (skipn p l))) = firstn c (skipn (p + k) l).
Proof.
  intros H. rewrite skipn_firstn_comm, firstn_firstn, skipn_skipn.
  rewrite Nat.min_l by lia. now rewrite (Nat.add_comm k p).
Qed.





(** ** Bulk copies *)

(** What [set] hands to the copy primitive when the source is a view: the
    destination address is that of element [offset], and the byte count is
    bounded by the second component of the clamped pair, which is the end of
    the window. *)
Lemma set_from_view (this src : MemoryView.t) (start : option Z) (w : World) :
  0 <= length this -> 0 <= byteOffset this ->
  let offset := fst (clamp (length this) start None) in
  let end_ := snd (clamp (length this) start None) in
  MemoryView.set this (SView src) start w =
  (cudaMemcpy (DeviceSpan (element_address this offset)) (span_of src)
     (Z.min (end_ * BYTES_PER_ELEMENT (TypedArray this)) (byteLength src)) ;;;
   ret tt) w.
Proof.
  intros Hl Ho offset end_.
  pose proof (clamp_bounds (length this) start None Hl) as [Hs He].
  fold offset end_ in Hs, He.
  unfold MemoryView.set. subst offset end_.
  destruct (clamp (length this) start None) as [s e]. cbn [fst snd] in *.
  unfold asMemoryView. unfold bind at 1. unfold ret at 1.
  rewrite (bind_Some _ _ _ _ _ (subarray_eq this (Some s) None w Hl Ho)).
  rewrite clamp_from by lia. reflexivity.
Qed.

(** C7 at one input.  [v] is a [Uint8Buffer] over eight bytes 1..8 and [s]
    is [v.subarray(0, 4)].  [s.set([9, 9, 9, 9], 2)] has the window of
    elements 2 and 3, that is 2 bytes, yet 4 bytes are copied: elements 4
    and 5 of [v], which lie outside [s], are overwritten. *)
Theorem set_copies_past_the_window :
  exists w v s w',
    (v <- new Uint8Array (SIterable [1; 2; 3; 4; 5; 6; 7; 8]) None ;;
     s <- subarray v (Some 0) (Some 4) ;;
     ret (v, s)) initial_world = Some (w, (v, s)) /\
    length s = 4 /\
    clamp (length s) (Some 2) None = (2, 4) /\
    MemoryView.set s (SIterable [9; 9; 9; 9]) (Some 2) w = Some (w', tt) /\
    (a <- toArray v ;; ret (ta_values a)) w' = Some (w', [1; 2; 9; 9; 9; 9; 7; 8]).
Proof.
  eexists _, _, _, _.
  split; [vm_compute; reflexivity|].
  split; [reflexivity|].
  split; [reflexivity|].
  split; [vm_compute; reflexivity|].
  vm_compute; reflexivity.
Qed.


(** * Further properties of buffer.ts *)

(** ** Windows of byte lists *)

Lemma store_app_left (m extra d : list byte) (a : Z) (m' : list byte) :
  store m a d = Some m' -> store (m ++ extra) a d = Some (m' ++ extra).
Proof.
  intros H. apply store_inv in H as (Ha & Hb & ->).
  rewrite store_Some by (rewrite ?length_app; lia). f_equal.
  rewrite firstn_app, skipn_app.
  replace (Z.to_nat a - List.length m)%nat with 0%nat by lia.
  replace (Z.to_nat a + List.length d - List.length m)%nat with 0%nat by lia.
  cbn [firstn skipn]. now rewrite app_nil_r, <- !app_assoc.
Qed.

Lemma window_after_store {A : Type} (dev F extra : list A) (p0 bl k : nat) :
  (p0 + bl <= List.length dev)%nat -> (k + List.length F <= bl)%nat ->
  let old := firstn bl (skipn p0 dev) in
  firstn bl (skipn p0 ((firstn (p0 + k) dev ++ F ++
                        skipn (p0 + k + List.length F) dev) ++ extra)) =
  firstn k old ++ F ++ skipn (k + List.length F) old.
Proof.
  intros Hd Hk old. subst old.
  rewrite firstn_firstn, Nat.min_l by lia.
  rewrite skipn_firstn_comm, skipn_skipn.
  rewrite <- !app_assoc.
  rewrite skipn_app, skipn_firstn_comm, length_firstn.
  replace (p0 + k - p0)%nat with k by lia.
  replace (p0 - Nat.min (p0 + k) (List.length dev))%nat with 0%nat by lia.
  cbn [skipn].
  rewrite firstn_app, length_firstn, length_skipn.
  rewrite firstn_firstn, Nat.min_r by lia.
  f_equal.
  replace (bl - Nat.min k (List.length dev - p0))%nat with (bl - k)%nat by lia.
  rewrite firstn_app. rewrite firstn_all2 by lia. f_equal.
  rewrite firstn_app, length_skipn.
  rewrite (Nat.add_comm (k + List.length F) p0), Nat.add_assoc.
  replace (bl - k - List.length F)%nat with (bl - (k + List.length F))%nat by lia.
  replace (bl - (k + List.length F) -
           (List.length dev - (p0 + k + List.length F)))%nat with 0%nat by lia.
  cbn [firstn]. apply app_nil_r.
Qed.

(** The bytes of an element inside a patched window. *)
Lemma elem_bytes_patched (T : TypedArrayConstructor) (old F : list byte) (s n len i : nat) :
  let B := Z.to_nat (BYTES_PER_ELEMENT T) in
  List.length old = (len * B)%nat -> List.length F = (n * B)%nat ->
  (s + n <= len)%nat -> (i < len)%nat ->
  elem_bytes T (firstn (s * B) old ++ F ++ skipn (s * B + List.length F) old) i =
  if ((s <=? i) && (i <? s + n))%nat then elem_bytes T F (i - s) else elem_bytes T old i.
Proof.
  intros B Hold HF Hsn Hi.
  assert (HB : (0 < B)%nat) by (pose proof (BYTES_PER_ELEMENT_pos T); subst B; lia).
  unfold elem_bytes. fold B.
  assert (Hs1 : List.length (firstn (s * B) old) = (s * B)%nat)
    by (rewrite length_firstn; nia).
  destruct (Nat.leb_spec s i) as [Hsi|Hsi]; cbn [andb].
  - destruct (Nat.ltb_spec i (s + n)) as [Hin|Hin].
    + (* inside the patch *)
      rewrite skipn_app, Hs1, skipn_all2 by (rewrite Hs1; nia). cbn [app].
      rewrite skipn_app, firstn_app.
      replace (i * B - s * B)%nat with ((i - s) * B)%nat by nia.
      replace (B - List.length (skipn ((i - s) * B) F))%nat with 0%nat
        by (rewrite length_skipn; nia).
      cbn [firstn]. apply app_nil_r.
    + (* after the patch *)
      rewrite skipn_app, Hs1, skipn_all2 by (rewrite Hs1; nia). cbn [app].
      rewrite skipn_app, skipn_all2 by nia. cbn [app].
      rewrite skipn_skipn. do 2 f_equal. nia.
  - (* before the patch *)
    replace (i <? s + n)%nat with true by (symmetry; apply Nat.ltb_lt; lia).
    rewrite skipn_app, firstn_app, Hs1.
    replace (i * B - s * B)%nat with 0%nat by nia.
    rewrite length_skipn, Hs1.
    replace (B - (s * B - i * B))%nat with 0%nat by nia.
    cbn [firstn skipn]. rewrite app_nil_r.
    rewrite skipn_firstn_comm, firstn_firstn. f_equal. nia.
Qed.

(** ** Writing host data into a view *)

Lemma clamp_end_omitted (len : Z) (start : option Z) :
  0 <= len -> snd (clamp len start None) = len.
Proof.
  intros Hl. unfold clamp, clampSliceArgs. cbn [snd]. cbv beta zeta.
  destruct start; split_ltb; lia.
Qed.

Lemma set_uploaded (v : MemoryView.t) (src : source) (start : option Z) (w : World)
    (b : list byte) :
  uploaded (TypedArray v) src = Some b -> 0 <= length v -> 0 <= byteOffset v ->
  let s := fst (clamp (length v) start None) in
  let n := Z.min (length v * BYTES_PER_ELEMENT (TypedArray v)) (Z.of_nat (List.length b)) in
  MemoryView.set v src start w =
  match store (device w ++ b) (element_address v s) (firstn (Z.to_nat n) b) with
  | Some dev' => Some (mk_world dev' (E w), tt)
  | None => None
  end.
Proof.
  intros Hu Hl Ho s n.
  pose proof (BYTES_PER_ELEMENT_pos (TypedArray v)) as Hp.
  pose proof (clamp_bounds (length v) start None Hl) as [Hs He].
  pose proof (clamp_end_omitted (length v) start Hl) as Hend.
  fold s in Hs. unfold MemoryView.set. subst s.
  destruct (clamp (length v) start None) as [s e]. cbn [fst snd] in *. subst e.
  assert (Hview : asMemoryView src (TypedArray v) w =
                  Some (mk_world (device w ++ b) (E w),
                        MemoryView.mk (TypedArray v)
                          (Memory.mk (Z.of_nat (List.length (device w)))
                             (Z.of_nat (List.length b)) (Z.of_nat (List.length b)))
                          0 (Z.of_nat (List.length b))
                          (Z.of_nat (List.length b) / BYTES_PER_ELEMENT (TypedArray v)) [])).
  { assert (asMemoryView src (TypedArray v) = new (TypedArray v) src None) as ->
      by (destruct src; try reflexivity; discriminate).
    rewrite new_single, (asMemory_upload _ src b w Hu). reflexivity. }
  rewrite (bind_Some _ _ _ _ _ Hview). cbn [byteLength].
  erewrite bind_Some by (apply subarray_eq; assumption).
  rewrite clamp_from by lia. cbn [fst snd].
  unfold span_of. cbn [buffer byteOffset Memory.ptr].
  fold (element_address v s). fold n.
  unfold bind, cudaMemcpy. cbn [device E].
  assert (Hn : 0 <= n <= Z.of_nat (List.length b)) by (subst n; nia).
  rewrite load_Some by (rewrite ?length_app; lia).
  rewrite Z.add_0_r, Nat2Z.id, skipn_app, skipn_all, Nat.sub_diag. cbn [skipn app].
  destruct (store _ _ _); reflexivity.
Qed.

Lemma set_fitting (v : MemoryView.t) (src : source) (start : option Z) (w : World)
    (b : list byte) :
  settled w v ->
  uploaded (TypedArray v) src = Some b ->
  let B := BYTES_PER_ELEMENT (TypedArray v) in
  let s := fst (clamp (length v) start None) in
  Z.of_nat (List.length b) <= (length v - s) * B ->
  exists w',
    MemoryView.set v src start w = Some (w', tt) /\
    settled w' v /\
    view_bytes w' v =
    firstn (Z.to_nat (s * B)) (view_bytes w v) ++ b ++
    skipn (Z.to_nat (s * B) + List.length b) (view_bytes w v).
Proof.
  intros (Hl & Ho & Hw & Hlo & Hhi) Hu B s Hfit.
  pose proof (BYTES_PER_ELEMENT_pos (TypedArray v)) as Hp. fold B in Hp.
  pose proof (clamp_bounds (length v) start None Hl) as [Hs He]. fold s in Hs, He.
  unfold whole_elements in Hw. fold B in Hw.
  assert (HsB : 0 <= s * B) by nia.
  assert (HlB : s * B <= length v * B) by nia.
  rewrite (set_uploaded v src start w b Hu Hl Ho). fold B s.
  rewrite Z.min_r by nia. rewrite Nat2Z.id, firstn_all.
  assert (Hst : store (device w) (element_address v s) b =
                Some (firstn (Z.to_nat (element_address v s)) (device w) ++ b ++
                      skipn (Z.to_nat (element_address v s) + List.length b) (device w))).
  { apply store_Some; unfold element_address; fold B; lia. }
  rewrite (store_app_left _ b _ _ _ Hst).
  eexists. split; [reflexivity|]. split.
  - repeat split; auto; cbn [device]; rewrite !length_app, length_firstn, length_skipn;
      unfold element_address in *; fold B; lia.
  - unfold view_bytes. cbn [device].
    replace (Z.to_nat (element_address v s))
      with (Z.to_nat (Memory.ptr (buffer v) + byteOffset v) + Z.to_nat (s * B))%nat
      by (unfold element_address; fold B; lia).
    apply window_after_store; lia.
Qed.

Lemma length_view_bytes (w : World) (v : MemoryView.t) :
  settled w v -> List.length (view_bytes w v) = Z.to_nat (byteLength v).
Proof.
  intros (Hl & Ho & Hw & Hlo & Hhi). unfold view_bytes.
  rewrite length_firstn, length_skipn. lia.
Qed.

Lemma toArray_settled (w : World) (v : MemoryView.t) :
  settled w v ->
  toArray v w = Some (w, mk_typed_array (TypedArray v) (view_bytes w v)).
Proof. intros (Hl & Ho & Hw & Hd). now apply toArray_eq. Qed.

Lemma ta_length_view (w : World) (v : MemoryView.t) :
  settled w v ->
  ta_length (mk_typed_array (TypedArray v) (view_bytes w v)) = length v.
Proof.
  intros Hs. pose proof (length_view_bytes w v Hs) as Hlen.
  destruct Hs as (Hl & Ho & Hw & Hd).
  pose proof (BYTES_PER_ELEMENT_pos (TypedArray v)) as Hp.
  unfold ta_length, ta_byteLength. cbn [ta_type ta_bytes]. rewrite Hlen.
  unfold whole_elements in Hw. rewrite Hw, Z2Nat.id by nia. apply Z.div_mul. lia.
Qed.

(** The elements of a view after host data of whole elements has been set
    where it fits. *)
Lemma set_fitting_elements (v : MemoryView.t) (src : source) (start : option Z) (w : World)
    (b : list byte) (n : Z) :
  settled w v ->
  uploaded (TypedArray v) src = Some b ->
  let T := TypedArray v in
  let s := fst (clamp (length v) start None) in
  0 <= n -> Z.of_nat (List.length b) = n * BYTES_PER_ELEMENT T -> s + n <= length v ->
  exists w',
    MemoryView.set v src start w = Some (w', tt) /\
    settled w' v /\
    forall i, 0 <= i < length v ->
      ta_get (mk_typed_array T (view_bytes w' v)) i =
      if (s <=? i) && (i <? s + n)
      then Some (decode T (elem_bytes T b (Z.to_nat (i - s))))
      else ta_get (mk_typed_array T (view_bytes w v)) i.
Proof.
  intros Hset Hu T s Hn Hb Hsn. subst T.
  pose proof (BYTES_PER_ELEMENT_pos (TypedArray v)) as Hp.
  pose proof Hset as (Hl & Ho & Hw & Hd).
  pose proof (clamp_bounds (length v) start None Hl) as [Hs He]. fold s in Hs, He.
  destruct (set_fitting v src start w b Hset Hu) as (w' & Hs' & Hset' & Hbytes).
  { fold s. rewrite Hb. nia. }
  exists w'. split; [exact Hs'|]. split; [exact Hset'|].
  intros i Hi. unfold ta_get.
  rewrite (ta_length_view w' v Hset'), (ta_length_view w v Hset).
  destruct (Z.leb_spec 0 i); [|lia]. destruct (Z.ltb_spec i (length v)); [|lia].
  cbn [andb ta_type ta_bytes]. fold s in Hbytes. rewrite Hbytes.
  pose proof (length_view_bytes w v Hset) as Hlen.
  unfold whole_elements in Hw.
  replace (Z.to_nat (s * BYTES_PER_ELEMENT (TypedArray v)))
    with (Z.to_nat s * Z.to_nat (BYTES_PER_ELEMENT (TypedArray v)))%nat by nia.
  rewrite (elem_bytes_patched (TypedArray v) (view_bytes w v) b (Z.to_nat s) (Z.to_nat n)
             (Z.to_nat (length v)) (Z.to_nat i)); try nia.
  destruct (Z.leb_spec s i); destruct (Z.ltb_spec i (s + n));
    destruct (Nat.leb_spec (Z.to_nat s) (Z.to_nat i));
    destruct (Nat.ltb_spec (Z.to_nat i) (Z.to_nat s + Z.to_nat n)); cbn [andb]; try lia; try reflexivity.
  do 3 f_equal. lia.
Qed.

Lemma elem_bytes_concat_repeat (T : TypedArrayConstructor) (e : list byte) (n j : nat) :
  List.length e = Z.to_nat (BYTES_PER_ELEMENT T) -> (j < n)%nat ->
  elem_bytes T (concat (repeat e n)) j = e.
Proof.
  intros He. revert j. induction n as [|n IH]; intros j Hj; [lia|].
  cbn [repeat concat]. destruct j as [|j].
  - now apply elem_bytes_head.
  - rewrite elem_bytes_cons by exact He. apply IH. lia.
Qed.

Lemma elem_bytes_concat_encode (T : TypedArrayConstructor) (xs : list Z) (j : nat) (x : Z) :
  nth_error xs j = Some x ->
  elem_bytes T (concat (map (encode T) xs)) j = encode T x.
Proof.
  revert j. induction xs as [|y xs IH]; intros j Hj; [now destruct j|].
  cbn [map concat]. destruct j as [|j]; cbn in Hj.
  - injection Hj as ->. apply elem_bytes_head, length_encode.
  - rewrite elem_bytes_cons by apply length_encode. now apply IH.
Qed.

Lemma length_concat_repeat {A : Type} (e : list A) (k : nat) :
  List.length (concat (repeat e k)) = (k * List.length e)%nat.
Proof.
  induction k as [|k IH]; [reflexivity|].
  cbn [repeat concat]. rewrite length_app, IH. lia.
Qed.

(** X1.  [fill(value, start, end)] on a settled view returns the view and
    changes exactly the elements of the clamped window: read back with
    [toArray], every element inside the window is the value as the element
    kind stores it, and every element outside is what it was. *)
Theorem fill_sets_the_window
    (v : MemoryView.t) (x : Z) (start end_ : option Z) (w : World) :
  settled w v ->
  let s := fst (clamp (length v) start end_) in
  let e := snd (clamp (length v) start end_) in
  exists w' r r',
    fill v x start end_ w = Some (w', v) /\
    toArray v w = Some (w, r) /\
    toArray v w' = Some (w', r') /\
    forall i, 0 <= i < length v ->
      ta_get r' i =
      if (s <=? i) && (i <? e) then Some (to_elem (TypedArray v) x) else ta_get r i.
Proof.
  intros Hset s e.
  pose proof Hset as (Hl & Ho & Hw & Hd).
  pose proof (BYTES_PER_ELEMENT_pos (TypedArray v)) as Hp.
  pose proof (clamp_bounds (length v) start end_ Hl) as [Hs He]. fold s e in Hs, He.
  set (n := e - s).
  set (b := concat (repeat (encode (TypedArray v) x) (Z.to_nat n))).
  assert (Hb : Z.of_nat (List.length b) = n * BYTES_PER_ELEMENT (TypedArray v)).
  { subst b. rewrite length_concat_repeat, length_encode. subst n. nia. }
  assert (Hfill : fill v x start end_ =
                  (MemoryView.set v (STypedArray (mk_typed_array (TypedArray v) b)) (Some s) ;;;
                   ret v)).
  { unfold fill. subst s e n.
    destruct (clamp (length v) start end_) as [s e]. cbn [fst snd] in *.
    unfold ta_new. destruct (Z.ltb_spec (e - s) 0); [lia|].
    unfold ta_fill, ta_length, ta_byteLength. cbn [ta_type ta_bytes].
    rewrite repeat_length, Z2Nat.id, Z.div_mul by nia. reflexivity. }
  destruct (set_fitting_elements v (STypedArray (mk_typed_array (TypedArray v) b)) (Some s) w b n)
    as (w' & Hs' & Hset' & Helems); auto.
  - subst n. lia.
  - rewrite clamp_from by lia. cbn [fst]. subst n. lia.
  - rewrite clamp_from in Helems by lia. cbn [fst] in Helems.
    exists w', (mk_typed_array (TypedArray v) (view_bytes w v)),
      (mk_typed_array (TypedArray v) (view_bytes w' v)).
    split; [rewrite Hfill; now rewrite (bind_Some _ _ _ _ _ Hs')|].
    split; [now apply toArray_settled|]. split; [now apply toArray_settled|].
    intros i Hi. rewrite (Helems i Hi).
    replace (s + n) with e by (subst n; lia).
    destruct ((s <=? i) && (i <? e)) eqn:Hin; [|reflexivity].
    apply andb_true_iff in Hin as [H1 H2]. apply Z.leb_le in H1. apply Z.ltb_lt in H2.
    subst b. rewrite elem_bytes_concat_repeat by (try apply length_encode; subst n; lia).
    now rewrite decode_encode.
Qed.

(** X2.  [set(values, start)] with a plain array that fits between the
    clamped start and the end of a settled view writes the numbers, as the
    element kind stores them, to the elements from the start on, and leaves
    every other element of the view as it was. *)
Theorem set_writes_values_that_fit
    (v : MemoryView.t) (xs : list Z) (start : option Z) (w : World) :
  settled w v ->
  let s := fst (clamp (length v) start None) in
  s + Z.of_nat (List.length xs) <= length v ->
  exists w' r r',
    MemoryView.set v (SIterable xs) start w = Some (w', tt) /\
    toArray v w = Some (w, r) /\
    toArray v w' = Some (w', r') /\
    forall i, 0 <= i < length v ->
      ta_get r' i =
      if (s <=? i) && (i <? s + Z.of_nat (List.length xs))
      then option_map (to_elem (TypedArray v)) (nth_error xs (Z.to_nat (i - s)))
      else ta_get r i.
Proof.
  intros Hset s Hfit.
  destruct (set_fitting_elements v (SIterable xs) start w
              (concat (map (encode (TypedArray v)) xs)) (Z.of_nat (List.length xs)))
    as (w' & Hs' & Hset' & Helems); auto.
  - lia.
  - apply length_concat_encode.
  - exists w', (mk_typed_array (TypedArray v) (view_bytes w v)),
      (mk_typed_array (TypedArray v) (view_bytes w' v)).
    split; [exact Hs'|].
    split; [now apply toArray_settled|]. split; [now apply toArray_settled|].
    intros i Hi. rewrite (Helems i Hi). fold s.
    destruct ((s <=? i) && (i <? s + Z.of_nat (List.length xs))) eqn:Hin; [|reflexivity].
    apply andb_true_iff in Hin as [H1 H2]. apply Z.leb_le in H1. apply Z.ltb_lt in H2.
    destruct (nth_error xs (Z.to_nat (i - s))) as [y|] eqn:Hy.
    + rewrite (elem_bytes_concat_encode _ _ _ _ Hy). cbn. now rewrite decode_encode.
    + apply nth_error_None in Hy. lia.
Qed.

(** ** Copying a view to the host *)

Lemma copyInto_ArrayBuffer_prefix
    (v : MemoryView.t) (bs : list byte) (start : option Z) (w : World) :
  settled w v ->
  let n := Nat.min (Z.to_nat (byteLength v)) (List.length bs) in
  copyInto v (TArrayBuffer bs) start w =
  Some (w, TArrayBuffer (firstn n (view_bytes w v) ++ skipn n bs)).
Proof.
  intros (Hl & Ho & Hw & Hlo & Hhi) n.
  pose proof (BYTES_PER_ELEMENT_pos (TypedArray v)) as Hp.
  unfold whole_elements in Hw.
  assert (Hb : 0 <= byteLength v) by nia.
  unfold copyInto, span_of.
  assert (Hload : load (device w) (Memory.ptr (buffer v) + byteOffset v)
                    (Z.min (byteLength v) (Z.of_nat (List.length bs))) =
                  Some (firstn n (view_bytes w v))).
  { rewrite load_Some by lia. f_equal. unfold view_bytes.
    rewrite firstn_firstn. f_equal. subst n. lia. }
  assert (Hlen : List.length (firstn n (view_bytes w v)) = n).
  { rewrite length_firstn. unfold view_bytes. rewrite length_firstn, length_skipn.
    subst n. lia. }
  erewrite bind_Some.
  2:{ apply cudaMemcpy_to_host; [exact Hload|]. rewrite Hlen. subst n. lia. }
  unfold ret. cbn [host_bytes]. now rewrite Hlen.
Qed.

(** X3.  [copyInto(target)] with an [ArrayBuffer] copies the first
    [min(byteLength, target.byteLength)] bytes of a settled view to the
    start of the target, leaves the rest of the target and the whole world
    as they were, and does not look at [start]. *)
Theorem copyInto_ArrayBuffer_copies_prefix
    (v : MemoryView.t) (bs : list byte) (start : option Z) (w : World) :
  settled w v ->
  let n := Nat.min (Z.to_nat (byteLength v)) (List.length bs) in
  copyInto v (TArrayBuffer bs) start w =
  Some (w, TArrayBuffer (firstn n (view_bytes w v) ++ skipn n bs)) /\
  copyInto v (TArrayBuffer bs) start w = copyInto v (TArrayBuffer bs) None w.
Proof.
  intros Hset n. split; [now apply copyInto_ArrayBuffer_prefix|reflexivity].
Qed.

Lemma copyInto_view_fits (v : MemoryView.t) (a : typed_array) (start : option Z) (w : World) :
  settled w v ->
  let B := BYTES_PER_ELEMENT (TypedArray v) in
  let s := fst (clamp (length v) start None) in
  ta_byteLength a <= (length v - s) * B ->
  copyInto_view v a start w =
  Some (w, mk_typed_array (ta_type a)
             (firstn (List.length (ta_bytes a))
                (skipn (Z.to_nat (s * B)) (view_bytes w v)))).
Proof.
  intros (Hl & Ho & Hw & Hlo & Hhi) B s Hfit.
  pose proof (BYTES_PER_ELEMENT_pos (TypedArray v)) as Hp. fold B in Hp.
  pose proof (clamp_bounds (length v) start None Hl) as [Hs He].
  pose proof (clamp_end_omitted (length v) start Hl) as Hend.
  fold s in Hs. unfold whole_elements in Hw. fold B in Hw.
  unfold ta_byteLength in Hfit.
  unfold copyInto_view. subst s.
  destruct (clamp (length v) start None) as [s e]. cbn [fst snd] in *. subst e.
  fold B. erewrite bind_Some by (apply subarray_eq; assumption).
  rewrite clamp_from by lia. cbn [fst snd]. fold B.
  unfold span_of, ta_byteLength. cbn [buffer byteOffset].
  rewrite Z.min_r by nia.
  assert (Hload : load (device w) (Memory.ptr (buffer v) + (byteOffset v + s * B))
                    (Z.of_nat (List.length (ta_bytes a))) =
                  Some (firstn (List.length (ta_bytes a))
                          (skipn (Z.to_nat (s * B)) (view_bytes w v)))).
  { rewrite load_Some by nia. f_equal. unfold view_bytes. rewrite Nat2Z.id.
    rewrite window_of_window by nia. do 2 f_equal. nia. }
  assert (Hlen : List.length (firstn (List.length (ta_bytes a))
                                (skipn (Z.to_nat (s * B)) (view_bytes w v))) =
                 List.length (ta_bytes a)).
  { rewrite length_firstn, length_skipn. unfold view_bytes.
    rewrite length_firstn, length_skipn. nia. }
  erewrite bind_Some.
  2:{ apply cudaMemcpy_to_host; [exact Hload|]. rewrite Hlen. lia. }
  unfold ret. cbn [host_bytes]. rewrite Hlen, skipn_all, app_nil_r. reflexivity.
Qed.

(** X4.  [copyInto(target, start)] with a host typed array that is no
    longer than the part of a settled view from the clamped start on fills
    the whole target with the bytes of the view from that element on; the
    target keeps its element kind and the world is as it was. *)
Theorem copyInto_typed_array_that_fits
    (v : MemoryView.t) (a : typed_array) (start : option Z) (w : World) :
  settled w v ->
  let B := BYTES_PER_ELEMENT (TypedArray v) in
  let s := fst (clamp (length v) start None) in
  ta_byteLength a <= (length v - s) * B ->
  copyInto v (TTypedArray a) start w =
  Some (w, TTypedArray
             (mk_typed_array (ta_type a)
                (firstn (List.length (ta_bytes a))
                   (skipn (Z.to_nat (s * B)) (view_bytes w v))))).
Proof.
  intros Hset B s Hfit. unfold copyInto.
  now rewrite (bind_Some _ _ _ _ _ (copyInto_view_fits v a start w Hset Hfit)).
Qed.

(** ** Views of views *)

(** X5.  A sub-view of a sub-view is a sub-view of the view: with
    [(s1, e1)] the clamped window of the first call and [(s2, e2)] the
    clamped window of the second inside it,
    [v.subarray(a, b).subarray(c, d)] is [v.subarray(s1 + s2, s1 + e2)]. *)
Theorem subarray_of_subarray
    (v : MemoryView.t) (a b c d : option Z) (w : World) :
  0 <= length v -> 0 <= byteOffset v ->
  let s1 := fst (clamp (length v) a b) in
  let e1 := snd (clamp (length v) a b) in
  let s2 := fst (clamp (e1 - s1) c d) in
  let e2 := snd (clamp (e1 - s1) c d) in
  (u <- subarray v a b ;; subarray u c d) w =
  subarray v (Some (s1 + s2)) (Some (s1 + e2)) w.
Proof.
  intros Hl Ho s1 e1 s2 e2.
  pose proof (BYTES_PER_ELEMENT_pos (TypedArray v)) as Hp.
  pose proof (clamp_bounds (length v) a b Hl) as [H1 H1']. fold s1 e1 in H1, H1'.
  pose proof (clamp_bounds (e1 - s1) c d ltac:(lia)) as [H2 H2']. fold s2 e2 in H2, H2'.
  rewrite (bind_Some _ _ _ _ _ (subarray_eq v a b w Hl Ho)). fold s1 e1.
  rewrite subarray_eq; cbn [length byteOffset TypedArray buffer]; [|lia|nia].
  fold s2 e2.
  rewrite (subarray_eq v (Some (s1 + s2)) (Some (s1 + e2)) w Hl Ho).
  rewrite clamp_inside by lia. cbn [fst snd].
  do 2 f_equal. f_equal; lia.
Qed.

(** ** Indexed access and the elements of a view *)

Lemma load_store_other (m : list byte) (a : Z) (d m' : list byte) (b n : Z) :
  store m a d = Some m' ->
  0 <= b -> 0 <= n ->
  b + n <= a \/ a + Z.of_nat (List.length d) <= b ->
  load m' b n = load m b n.
Proof.
  intros Hst Hb Hn Hdis.
  pose proof (length_store _ _ _ _ Hst) as Hlen.
  apply store_inv in Hst as (Ha & Hfit & ->).
  unfold load. rewrite Hlen.
  destruct ((0 <=? b) && (0 <=? n) && (b + n <=? Z.of_nat (List.length m))) eqn:Hc;
    [|reflexivity].
  apply andb_true_iff in Hc as [_ Hc]. apply Z.leb_le in Hc.
  f_equal. destruct Hdis as [Hbefore|Hafter].
  - rewrite skipn_app, firstn_app.
    rewrite skipn_firstn_comm, firstn_firstn.
    rewrite length_firstn, length_skipn.
    replace (Z.to_nat n - Nat.min (Z.to_nat a - Z.to_nat b)
                                   (List.length m - Z.to_nat b))%nat with 0%nat by lia.
    cbn [firstn]. rewrite app_nil_r. f_equal. lia.
  - rewrite skipn_app, skipn_all2 by (rewrite length_firstn; lia). cbn [app].
    rewrite length_firstn, skipn_app, skipn_all2 by lia. cbn [app].
    rewrite skipn_skipn. do 2 f_equal. lia.
Qed.

(** X6.  An indexed write inside a settled view changes one element: read
    with the [get] trap afterwards, the written index gives the value as the
    element kind stores it, and every other index inside the view gives
    what it gave before the write. *)
Theorem indexed_write_changes_one_element
    (v : MemoryView.t) (i j x : Z) (w : World) :
  settled w v -> staging_ok w ->
  0 <= i < length v -> 0 <= j < length v ->
  exists w1 w2 w3 y0 y1,
    set_ (Index i) x v w = Some (w1, (v, true)) /\
    get (Index j) v w = Some (w2, (v, Element y0)) /\
    get (Index j) v w1 = Some (w3, (v, Element y1)) /\
    y1 = if j =? i then to_elem (TypedArray v) x else y0.
Proof.
  intros (Hl & Ho & Hw & Hd) Hst Hi Hj.
  pose proof (BYTES_PER_ELEMENT_pos (TypedArray v)) as Hp.
  pose proof (BYTES_PER_ELEMENT_le_8 (TypedArray v)) as H8.
  destruct (set_in_range v i x w Hi Hw Hd) as (m' & Hstore & Hset).
  destruct (get_in_range v j w Hj Hw Hd Hst) as (d0 & Hload0 & Hget0).
  pose proof (length_store _ _ _ _ Hstore) as Hlm.
  set (w1 := mk_world m' _) in Hset.
  assert (Hd1 : in_device w1 v).
  { unfold in_device in *. cbn [device w1]. rewrite Hlm. exact Hd. }
  assert (Hst1 : staging_ok w1).
  { unfold staging_ok in *. cbn [E w1].
    rewrite length_app, length_encode, length_skipn, Hst. lia. }
  destruct (get_in_range v j w1 Hj Hw Hd1 Hst1) as (d1 & Hload1 & Hget1).
  cbn [device w1] in Hload1.
  eexists w1, _, _, _, _. split; [exact Hset|]. split; [exact Hget0|].
  split; [exact Hget1|].
  destruct (Z.eqb_spec j i) as [->|Hne].
  - pose proof (load_store_same _ _ _ _ Hstore) as Hback.
    rewrite length_encode, Z2Nat.id in Hback by lia.
    rewrite Hback in Hload1. injection Hload1 as <-. apply decode_encode.
  - rewrite (load_store_other _ _ _ _ _ _ Hstore) in Hload1.
    + rewrite Hload0 in Hload1. now injection Hload1 as <-.
    + destruct (element_in_device v j w Hj Hw Hd). lia.
    + lia.
    + rewrite length_encode, Z2Nat.id by lia. unfold element_address. nia.
Qed.

(** X7.  [toArray] and the [get] trap agree: on a settled view, element
    [i] of the typed array that [toArray] returns is the value the trap
    reads at index [i]. *)
Theorem toArray_agrees_with_get (v : MemoryView.t) (i : Z) (w : World) :
  settled w v -> staging_ok w -> 0 <= i < length v ->
  exists r w' y,
    toArray v w = Some (w, r) /\
    get (Index i) v w = Some (w', (v, Element y)) /\
    ta_get r i = Some y.
Proof.
  intros Hset Hst Hi. pose proof Hset as (Hl & Ho & Hw & Hd).
  pose proof (BYTES_PER_ELEMENT_pos (TypedArray v)) as Hp.
  destruct (get_in_range v i w Hi Hw Hd Hst) as (d & Hload & Hget).
  eexists _, _, _. split; [now apply toArray_settled|]. split; [exact Hget|].
  unfold ta_get. rewrite (ta_length_view w v Hset).
  destruct (Z.leb_spec 0 i); [|lia]. destruct (Z.ltb_spec i (length v)); [|lia].
  cbn [andb ta_type ta_bytes]. do 2 f_equal.
  apply load_inv in Hload as (_ & _ & _ & ->).
  unfold elem_bytes, view_bytes. unfold whole_elements in Hw.
  destruct Hd as [Hlo Hhi].
  rewrite window_of_window by nia.
  do 2 f_equal. unfold element_address. nia.
Qed.

(** ** Reading sub-views and uploaded buffers *)

(** X8.  Reading a sub-view gives the slice of what the view reads: on a
    settled view, for any optional integer arguments,
    [v.subarray(a, b).toArray()] is [v.toArray().slice(a, b)], and neither
    call changes the world. *)
Theorem subarray_commutes_with_toArray
    (v : MemoryView.t) (a b : option Z) (w : World) :
  settled w v ->
  exists u r1 r2,
    subarray v a b w = Some (w, u) /\
    toArray u w = Some (w, r1) /\
    toArray v w = Some (w, r2) /\
    r1 = ta_slice r2 a b.
Proof.
  intros Hset. pose proof Hset as (Hl & Ho & Hw & Hlo & Hhi).
  pose proof (BYTES_PER_ELEMENT_pos (TypedArray v)) as Hp.
  pose proof (clamp_bounds (length v) a b Hl) as [Hs He].
  pose proof (clamp_relative_index (length v) a b Hl) as Hrel. cbv zeta in Hrel.
  set (k := relative_index (length v) match a with Some s => s | None => 0 end) in *.
  set (final := relative_index (length v) match b with Some e => e | None => length v end) in *.
  set (count := Z.max (final - k) 0) in *.
  rewrite Hrel in Hs, He. cbn [fst snd] in Hs, He.
  unfold whole_elements in Hw.
  pose proof (subarray_eq v a b w Hl Ho) as Hsub. cbv zeta in Hsub.
  rewrite Hrel in Hsub. cbn [fst snd] in Hsub.
  replace (k + count - k) with count in Hsub by lia.
  eexists _, _, _. split; [exact Hsub|].
  rewrite toArray_settled.
  2:{ repeat split; cbn [length byteOffset byteLength buffer TypedArray]; nia. }
  rewrite (toArray_settled w v Hset).
  split; [reflexivity|]. split; [reflexivity|].
  unfold ta_slice. rewrite (ta_length_view w v Hset). fold k final count.
  cbn [ta_type ta_bytes]. f_equal.
  unfold view_bytes. cbn [length byteOffset byteLength buffer TypedArray].
  rewrite window_of_window by nia.
  do 2 f_equal. nia.
Qed.

(** X9.  The bytes of an [ArrayBuffer] of whole elements survive the round
    trip through a view: [new View(buffer)] read back with [copyInto] into
    an [ArrayBuffer] of the same size gives the bytes of [buffer]. *)
Theorem ArrayBuffer_round_trip
    (T : TypedArrayConstructor) (bs target_ : list byte) (w : World) :
  Z.of_nat (List.length bs) mod BYTES_PER_ELEMENT T = 0 ->
  List.length target_ = List.length bs ->
  exists w1 v,
    new T (SArrayBuffer bs) None w = Some (w1, v) /\
    length v = Z.of_nat (List.length bs) / BYTES_PER_ELEMENT T /\
    copyInto v (TArrayBuffer target_) None w1 = Some (w1, TArrayBuffer bs).
Proof.
  intros Hm Hlen.
  pose proof (BYTES_PER_ELEMENT_pos T) as Hp.
  rewrite new_single, (asMemory_upload T (SArrayBuffer bs) bs w eq_refl).
  cbn [l_buffer l_byteOffset l_byteLength l_length].
  eexists _, _. split; [reflexivity|]. split; [reflexivity|].
  rewrite copyInto_ArrayBuffer_prefix.
  - cbn [byteLength]. rewrite Nat2Z.id, Hlen, Nat.min_id.
    rewrite skipn_all2 by lia. rewrite app_nil_r.
    unfold view_bytes. cbn [byteLength buffer byteOffset Memory.ptr device].
    rewrite Z.add_0_r, !Nat2Z.id, skipn_app, skipn_all, Nat.sub_diag.
    cbn [skipn app]. now rewrite !firstn_all.
  - repeat split; cbn [length byteOffset byteLength buffer TypedArray Memory.ptr device].
    + apply Z.div_pos; lia.
    + lia.
    + unfold whole_elements. cbn [length byteOffset byteLength buffer TypedArray].
      rewrite Z.mul_comm. apply Z.div_exact; lia.
    + lia.
    + rewrite length_app. lia.
Qed.

(** * Column accessors *)

Section ColumnAccessorFacts.

Import ColumnAccessor.

Variable Column : Type.
Variable column_length : Column -> Z.

(** ** Objects *)

Lemma lookup_In {A : Type} (k : String.string) (o : object A) :
  lookup k o <> None <-> In k (keys o).
Proof.
  induction o as [|[k' v] o IH]; cbn; [tauto|].
  destruct (String.eqb_spec k k') as [->|Hne].
  - split; [auto|discriminate].
  - rewrite IH. split; [auto|]. intros [H|H]; [congruence|exact H].
Qed.

Lemma lookup_None {A : Type} (k : String.string) (o : object A) :
  lookup k o = None <-> ~ In k (keys o).
Proof.
  rewrite <- lookup_In. split.
  - intros H Hn. contradiction.
  - intros H. destruct (lookup k o); [exfalso; apply H; discriminate|reflexivity].
Qed.

Lemma among_In (ks : list String.string) (k : String.string) :
  among ks k = true <-> In k ks.
Proof.
  unfold among. rewrite existsb_exists. split.
  - intros (x & Hx & He). apply String.eqb_eq in He. now subst.
  - intros H. exists k. split; [exact H|apply String.eqb_refl].
Qed.

Lemma among_false (ks : list String.string) (k : String.string) :
  among ks k = false <-> ~ In k ks.
Proof.
  rewrite <- among_In. split.
  - intros H Hn. congruence.
  - intros H. destruct (among ks k); [exfalso; now apply H|reflexivity].
Qed.

Lemma insert_key_ordinary {A : Type} (k : String.string) (v : A) (o : object A) :
  array_index k = None -> insert_key k v o = o ++ [(k, v)].
Proof.
  intros Hk. induction o as [|[k' v'] o IH]; cbn; [reflexivity|].
  rewrite Hk. now rewrite IH.
Qed.

Lemma define_fresh {A : Type} (k : String.string) (v : A) (o : object A) :
  array_index k = None -> ~ In k (keys o) -> define k v o = o ++ [(k, v)].
Proof.
  intros Hk Hn. unfold define. apply lookup_None in Hn. rewrite Hn.
  now apply insert_key_ordinary.
Qed.

Lemma assign_fresh {A : Type} (k : String.string) (v : A) (o : object A) :
  ordinary k -> ~ In k (keys o) -> assign k v o = o ++ [(k, v)].
Proof.
  intros [Hk Hp] Hn. unfold assign.
  destruct (String.eqb_spec k proto_key); [contradiction|].
  now apply define_fresh.
Qed.

Lemma keys_replace {A : Type} (k : String.string) (v : A) (o : object A) :
  keys (replace k v o) = keys o.
Proof.
  unfold keys. induction o as [|[k' v'] o IH]; cbn; [reflexivity|].
  destruct (String.eqb_spec k k') as [->|Hne]; cbn; [reflexivity|].
  now rewrite IH.
Qed.

Lemma keys_app {A : Type} (a b : object A) : keys (a ++ b) = keys a ++ keys b.
Proof. apply map_app. Qed.

Lemma lookup_app {A : Type} (k : String.string) (a b : object A) :
  lookup k (a ++ b) = match lookup k a with Some v => Some v | None => lookup k b end.
Proof.
  induction a as [|[k' v'] a IH]; cbn; [reflexivity|].
  destruct (String.eqb k k'); [reflexivity|exact IH].
Qed.

Lemma lookup_replace {A : Type} (k k' : String.string) (v : A) (o : object A) :
  lookup k' (replace k v o) =
  if String.eqb k' k then match lookup k o with Some _ => Some v | None => None end
  else lookup k' o.
Proof.
  induction o as [|[k0 v0] o IH]; cbn.
  - now destruct (String.eqb k' k).
  - destruct (String.eqb_spec k k0) as [->|Hne]; cbn.
    + destruct (String.eqb_spec k' k0); reflexivity.
    + rewrite IH. destruct (String.eqb_spec k' k) as [->|Hne'].
      * destruct (String.eqb_spec k k0); [contradiction|reflexivity].
      * reflexivity.
Qed.

(** ** The constructor *)

Lemma loosely_equal_eq (x y : option Z) : loosely_equal x y = true <-> x = y.
Proof.
  destruct x as [a|], y as [b|]; cbn; try (split; congruence).
  rewrite Z.eqb_eq. split; congruence.
Qed.

(** X10.  The constructor throws exactly when two of the values of the data
    object have different lengths; in particular it accepts an object
    without columns. *)
Theorem constructor_rejects_unequal_lengths (data : object (@member Column)) :
  new column_length data = None <->
  exists m1 m2, In m1 (values data) /\ In m2 (values data) /\
                member_length column_length m1 <> member_length column_length m2.
Proof.
  unfold new. destruct (values data) as [|c0 cs] eqn:Hv.
  - split; [discriminate|]. intros (m1 & _ & [] & _).
  - set (N := member_length column_length c0).
    destruct (forallb _ (c0 :: cs)) eqn:Hall.
    + split; [discriminate|]. intros (m1 & m2 & H1 & H2 & Hne).
      rewrite forallb_forall in Hall.
      apply Hall in H1, H2. apply loosely_equal_eq in H1, H2. congruence.
    + split; [intros _|reflexivity].
      assert (Hex : exists m, In m (c0 :: cs) /\
                              loosely_equal (member_length column_length m) N = false).
      { clear Hv. revert Hall. generalize (c0 :: cs) as l.
        induction l as [|m l IH]; cbn; [discriminate|].
        destruct (loosely_equal (member_length column_length m) N) eqn:Hm; cbn.
        - intros H. destruct (IH H) as (m' & Hin & Hf). exists m'. auto.
        - intros _. exists m. auto. }
      destruct Hex as (m & Hin & Hf).
      exists m, c0. split; [exact Hin|]. split; [now left|].
      intros Heq. apply loosely_equal_eq in Heq. fold N in Heq. congruence.
Qed.

Lemma new_Some (data : object (@member Column)) (a : t Column) :
  new column_length data = Some a ->
  a = mk data (set_labels (keys data) 0 []).
Proof.
  unfold new. destruct (match values data with [] => true | _ => _ end); [|discriminate].
  now intros [= <-].
Qed.

(** ** The map from names to positions *)

Lemma Map_set_fresh (m : list (String.string * nat)) (k : String.string) (i : nat) :
  ~ In k (keys m) -> Map_set m k i = m ++ [(k, i)].
Proof. intros H. unfold Map_set. apply lookup_None in H. now rewrite H. Qed.

Lemma set_labels_fresh (ns : list String.string) (i : nat) (m : list (String.string * nat)) :
  NoDup ns -> (forall n, In n ns -> ~ In n (keys m)) ->
  set_labels ns i m = m ++ combine ns (seq i (List.length ns)).
Proof.
  revert i m. induction ns as [|n ns IH]; intros i m Hnd Hm; cbn.
  - now rewrite app_nil_r.
  - inversion Hnd as [|? ? Hn Hnd']; subst.
    rewrite Map_set_fresh by (apply Hm; now left).
    rewrite IH; [now rewrite <- app_assoc|exact Hnd'|].
    intros n' Hin. rewrite keys_app, in_app_iff. cbn.
    intros [H|[H|[]]]; [exact (Hm n' (or_intror Hin) H)|]. subst. contradiction.
Qed.

Lemma lookup_combine_seq (ns : list String.string) (i j : nat) (k : String.string) :
  NoDup ns ->
  lookup k (combine ns (seq i (List.length ns))) = Some j <->
  (i <= j)%nat /\ nth_error ns (j - i) = Some k.
Proof.
  revert i. induction ns as [|n ns IH]; intros i Hnd; cbn.
  - split; [discriminate|]. intros [_ H]. now destruct (j - i)%nat.
  - inversion Hnd as [|? ? Hn Hnd']; subst.
    destruct (String.eqb_spec k n) as [->|Hne].
    + split.
      * intros [= <-]. rewrite Nat.sub_diag. auto.
      * intros [Hle H]. destruct (j - i)%nat as [|d] eqn:Hd.
        -- f_equal. lia.
        -- cbn in H. apply nth_error_In in H. contradiction.
    + rewrite (IH (S i) Hnd'). split.
      * intros [Hle H]. split; [lia|].
        replace (j - i)%nat with (S (j - S i)) by lia. exact H.
      * intros [Hle H]. destruct (j - i)%nat as [|d] eqn:Hd.
        -- cbn in H. congruence.
        -- cbn in H. split; [lia|]. replace (j - S i)%nat with d by lia. exact H.
Qed.

Lemma index_position_aux
    (data : object (@member Column)) (a : t Column) (name : String.string) :
  NoDup (keys data) ->
  new column_length data = Some a ->
  (forall i, columnNameToColumnIndex a name = Some i -> nth_error (names a) i = Some name) /\
  (columnNameToColumnIndex a name = None -> ~ In name (names a)).
Proof.
  intros Hnd Hnew. apply new_Some in Hnew. subst a.
  unfold columnNameToColumnIndex, Map_get, names. cbn [_data _labels_to_indices].
  rewrite set_labels_fresh by (auto; intros n _ []). cbn [app].
  split.
  - intros i H. apply lookup_combine_seq in H as [_ H]; [|exact Hnd].
    now rewrite Nat.sub_0_r in H.
  - intros Hl Hin. apply In_nth_error in Hin as [j Hj].
    assert (lookup name (combine (keys data) (seq 0 (List.length (keys data)))) = Some j)
      as Hc by (apply lookup_combine_seq; [exact Hnd|]; rewrite Nat.sub_0_r; split; [lia|exact Hj]).
    congruence.
Qed.

(** X11.  In an accessor that the constructor returns, each name is mapped
    to its position in [names]: [columnNameToColumnIndex(name)] is [i]
    exactly when [names[i]] is [name] (so it is [undefined] exactly for the
    names that are no column), and [length] counts the names. *)
Theorem index_is_position_in_names
    (data : object (@member Column)) (a : t Column) (name : String.string) (i : nat) :
  NoDup (keys data) ->
  new column_length data = Some a ->
  (columnNameToColumnIndex a name = Some i <-> nth_error (names a) i = Some name) /\
  (columnNameToColumnIndex a name = None <-> ~ In name (names a)) /\
  length a = List.length (names a).
Proof.
  intros Hnd Hnew. apply new_Some in Hnew. subst a.
  unfold columnNameToColumnIndex, Map_get, names, length. cbn [_data _labels_to_indices].
  rewrite set_labels_fresh by (auto; intros n _ []). cbn [app].
  split; [|split].
  - rewrite lookup_combine_seq by exact Hnd. rewrite Nat.sub_0_r.
    split; [tauto|]. intros H. split; [lia|exact H].
  - destruct (lookup name (combine _ _)) as [j|] eqn:Hl.
    + apply lookup_combine_seq in Hl as [_ Hl]; [|exact Hnd].
      apply nth_error_In in Hl. split; [discriminate|]. intros H. contradiction.
    + split; [intros _ Hin|reflexivity].
      apply In_nth_error in Hin as [j Hj].
      assert (lookup name (combine (keys data) (seq 0 (List.length (keys data)))) = Some j)
        as Hc by (apply lookup_combine_seq; [exact Hnd|]; rewrite Nat.sub_0_r; split; [lia|exact Hj]).
      congruence.
  - rewrite length_combine, length_seq. apply Nat.min_id.
Qed.

(** ** Reading a column *)

Lemma lookup_nth (A : Type) (o : object A) (k : String.string) (i : nat) :
  NoDup (keys o) -> nth_error (keys o) i = Some k ->
  lookup k o = nth_error (values o) i.
Proof.
  revert i. induction o as [|[k' v] o IH]; intros i Hnd Hi; cbn in *.
  - now destruct i.
  - inversion Hnd as [|? ? Hn Hnd']; subst.
    destruct i as [|i]; cbn in *.
    + injection Hi as ->. now rewrite String.eqb_refl.
    + destruct (String.eqb_spec k k') as [->|Hne].
      * apply nth_error_In in Hi. contradiction.
      * now apply IH.
Qed.

(** X12.  In an accessor that the constructor returns, [get(name)] gives the
    column at the position of the name, [columns[columnNameToColumnIndex(name)]];
    for a name that is no column it throws, unless the name is a property of
    [Object.prototype]: then nothing is thrown and the inherited member is
    returned. *)
Theorem get_reads_the_indexed_column
    (data : object (@member Column)) (a : t Column) (name : String.string) :
  NoDup (keys data) ->
  new column_length data = Some a ->
  match columnNameToColumnIndex a name with
  | Some i => exists c, nth_error (columns a) i = Some c /\ get a name = Some (Some c)
  | None =>
      get a name = if inherited name then Some (Some (Inherited name)) else None
  end.
Proof.
  intros Hnd Hnew.
  destruct (index_position_aux data a name Hnd Hnew) as [Hsome Hnone].
  destruct (columnNameToColumnIndex a name) as [i|] eqn:Hi.
  - specialize (Hsome i (eq_refl _)).
    apply new_Some in Hnew. subst a. unfold names, columns, get, has, read in *.
    cbn [_data] in *.
    rewrite (lookup_nth _ data name i Hnd Hsome).
    destruct (nth_error (values data) i) as [c|] eqn:Hc.
    + exists c. auto.
    + exfalso. apply nth_error_None in Hc. unfold values in Hc. rewrite length_map in Hc.
      assert (i < List.length (keys data))%nat as Hlt
        by (apply nth_error_Some; congruence).
      unfold keys in Hlt. rewrite length_map in Hlt. lia.
  - specialize (Hnone (eq_refl _)).
    apply new_Some in Hnew. subst a. unfold names, get, has, read in *. cbn [_data] in *.
    apply lookup_None in Hnone. rewrite Hnone.
    now destruct (inherited name).
Qed.

(** ** Merging and filtering objects *)

Lemma new_succeeds (data : object (@member Column)) :
  (forall m1 m2, In m1 (values data) -> In m2 (values data) ->
                 member_length column_length m1 = member_length column_length m2) ->
  new column_length data = Some (mk data (set_labels (keys data) 0 [])).
Proof.
  intros H. unfold new. destruct (values data) as [|c0 cs] eqn:Hv; [reflexivity|].
  assert (forallb (fun col => loosely_equal (member_length column_length col)
                                (member_length column_length c0)) (c0 :: cs) = true) as ->.
  { apply forallb_forall. intros m Hm. apply loosely_equal_eq.
    apply H; [exact Hm|now left]. }
  reflexivity.
Qed.

Lemma new_lengths (data : object (@member Column)) (a : t Column) :
  new column_length data = Some a ->
  forall m1 m2, In m1 (values data) -> In m2 (values data) ->
                member_length column_length m1 = member_length column_length m2.
Proof.
  unfold new. destruct (values data) as [|c0 cs] eqn:Hv; [intros _ m1 m2 []|].
  destruct (forallb _ (c0 :: cs)) eqn:Hall; [|discriminate].
  intros _ m1 m2 H1 H2. rewrite forallb_forall in Hall.
  apply Hall in H1, H2. apply loosely_equal_eq in H1, H2. congruence.
Qed.

Lemma replace_same {A : Type} (k : String.string) (v : A) (o : object A) :
  lookup k o = Some v -> replace k v o = o.
Proof.
  induction o as [|[k' v'] o IH]; cbn; [reflexivity|].
  destruct (String.eqb_spec k k') as [->|Hne].
  - now intros [= ->].
  - intros H. now rewrite IH.
Qed.

Lemma overridden_keys {A : Type} (a b : object A) : keys (overridden a b) = keys a.
Proof.
  unfold overridden, keys. rewrite map_map. apply map_ext.
  intros [k v]. cbn. now destruct (lookup k b).
Qed.

Lemma overridden_replace {A : Type} (k : String.string) (v : A) (b acc : object A) :
  NoDup (keys acc) -> ~ In k (keys b) ->
  overridden (replace k v acc) b = overridden acc ((k, v) :: b).
Proof.
  intros Hnd Hk. apply lookup_None in Hk.
  unfold overridden. induction acc as [|[k' v'] acc IH]; [reflexivity|].
  inversion Hnd as [|? ? Hk' Hnd']; subst.
  cbn [replace]. destruct (String.eqb_spec k k') as [->|Hne]; cbn [map fst lookup].
  - rewrite String.eqb_refl, Hk. f_equal.
    apply map_ext_in. intros [k2 v2] Hin. cbn [fst lookup].
    destruct (String.eqb_spec k2 k') as [->|Hne2]; [|reflexivity].
    apply (in_map fst) in Hin. contradiction.
  - destruct (String.eqb_spec k' k) as [->|_]; [contradiction|].
    now rewrite IH.
Qed.

Lemma fold_define {A : Type} (b acc : object A) :
  NoDup (keys acc) ->
  NoDup (keys b) -> Forall (fun k => array_index k = None) (keys b) ->
  fold_left (fun o kv => define (fst kv) (snd kv) o) b acc =
  overridden acc b ++ added acc b.
Proof.
  revert acc. induction b as [|[k v] b IH]; intros acc Hacc Hnd Hord.
  - cbn. unfold overridden. rewrite app_nil_r. symmetry.
    rewrite <- (map_id acc) at 2. apply map_ext. now intros [k v].
  - cbn [fold_left fst snd]. inversion Hnd as [|? ? Hk Hnd']; subst.
    inversion Hord as [|? ? Hik Hord']; subst.
    unfold added. cbn [filter fst]. unfold define.
    destruct (lookup k acc) as [v0|] eqn:Hl.
    + (* the key is there: its value is replaced *)
      assert (Hin : In k (keys acc)) by (apply lookup_In; congruence).
      rewrite IH; [|now rewrite keys_replace|assumption|assumption].
      apply among_In in Hin. rewrite Hin. cbn [negb].
      unfold added. rewrite keys_replace. f_equal.
      now apply overridden_replace.
    + (* the key is new: it goes last *)
      assert (Hnin : ~ In k (keys acc)) by (now apply lookup_None).
      rewrite insert_key_ordinary by exact Hik.
      rewrite IH; [| |assumption|assumption].
      2:{ rewrite keys_app. cbn. apply NoDup_app; [exact Hacc|repeat constructor; auto|].
          intros x Hx [<-|[]]. contradiction. }
      apply among_false in Hnin. rewrite Hnin. cbn [negb].
      unfold overridden. rewrite map_app. cbn [map fst].
      assert (lookup k b = None) as -> by (now apply lookup_None).
      rewrite <- app_assoc. cbn [app]. f_equal.
      * apply map_ext_in. intros [k2 v2] Hin2. cbn [fst lookup].
        destruct (String.eqb_spec k2 k) as [->|Hne2]; [|reflexivity].
        apply (in_map fst) in Hin2. cbn in Hin2. apply among_false in Hnin. contradiction.
      * f_equal. unfold added. apply filter_ext_in. intros [k2 v2] Hin2. cbn [fst].
        f_equal. unfold among. rewrite keys_app, existsb_app. cbn [keys map fst existsb].
        destruct (String.eqb_spec k2 k) as [->|Hne2]; [|now rewrite !orb_false_r].
        apply (in_map fst) in Hin2. contradiction.
Qed.

Lemma spread_plain {A : Type} (a b : object A) :
  plain_object a -> plain_object b ->
  spread a b = overridden a b ++ added a b.
Proof.
  intros [Ha1 Ha2] [Hb1 Hb2]. unfold spread.
  assert (Hidx : forall l, Forall ordinary l -> Forall (fun k => array_index k = None) l).
  { intros l H. eapply Forall_impl; [|exact H]. now intros k [Hk _]. }
  rewrite (fold_define a []) by (auto; constructor). cbn [overridden map app].
  assert (added [] a = a) as ->.
  { unfold added. cbn. induction a as [|kv a IH]; [reflexivity|]. cbn.
    inversion Ha1; inversion Ha2; subst. now rewrite IH. }
  apply fold_define; auto.
Qed.

Lemma keys_filter {A : Type} (p : String.string -> bool) (o : object A) :
  keys (filter (fun kv => p (fst kv)) o) = filter p (keys o).
Proof.
  unfold keys. induction o as [|[k v] o IH]; [reflexivity|].
  cbn [filter map fst]. destruct (p k); cbn [map fst]; now rewrite IH.
Qed.

Lemma lookup_filter {A : Type} (p : String.string -> bool) (k : String.string) (o : object A) :
  lookup k (filter (fun kv => p (fst kv)) o) = if p k then lookup k o else None.
Proof.
  induction o as [|[k' v] o IH]; cbn [filter fst lookup]; [now destruct (p k)|].
  destruct (p k') eqn:Hp; cbn [lookup]; destruct (String.eqb_spec k k') as [->|Hne];
    try exact IH.
  - now rewrite Hp.
  - rewrite IH. now rewrite Hp.
Qed.

Lemma lookup_overridden {A : Type} (k : String.string) (a b : object A) :
  lookup k (overridden a b) =
  match lookup k a with
  | Some v0 => match lookup k b with Some v => Some v | None => Some v0 end
  | None => None
  end.
Proof.
  unfold overridden. induction a as [|[k' v'] o IH]; [reflexivity|].
  cbn [map fst lookup].
  destruct (lookup k' b) as [v|] eqn:Hl; cbn [fst lookup];
    destruct (String.eqb_spec k k') as [->|Hne]; try exact IH; now rewrite Hl.
Qed.

(** X13.  [addColumns(data)] constructs the accessor of the merged object:
    the names of this accessor stay in place, each with the column of
    [data] when [data] has that name and with its own column otherwise,
    and the names that only [data] has follow in the order of [data]. *)
Theorem addColumns_merges (a : t Column) (data : object (@member Column)) :
  plain_object (_data a) -> plain_object data ->
  let merged := overridden (_data a) data ++ added (_data a) data in
  addColumns column_length a data = new column_length merged /\
  keys merged = names a ++ filter (fun k => negb (among (names a) k)) (keys data) /\
  forall k, lookup k merged =
            match lookup k data with
            | Some v => Some v
            | None => lookup k (_data a)
            end.
Proof.
  intros Ha Hd merged. split; [|split].
  - unfold addColumns. now rewrite spread_plain.
  - unfold merged, added, names. rewrite keys_app, overridden_keys. f_equal.
    apply (keys_filter (fun k => negb (among (keys (_data a)) k))).
  - intros k. unfold merged, added. rewrite lookup_app, lookup_overridden.
    rewrite (lookup_filter (fun k => negb (among (keys (_data a)) k))).
    destruct (lookup k (_data a)) as [v0|] eqn:Hla.
    + now destruct (lookup k data).
    + assert (among (keys (_data a)) k = false) as ->
        by (apply among_false; now apply lookup_None).
      cbn [negb]. now destruct (lookup k data).
Qed.

(** ** Dropping columns *)

Lemma keys_insert_key {A : Type} (k x : String.string) (v : A) (o : object A) :
  In k (keys (insert_key x v o)) <-> k = x \/ In k (keys o).
Proof.
  induction o as [|[k' v'] o IH]; cbn; [intuition congruence|].
  destruct (array_index x) as [n|]; [destruct (array_index k') as [n'|]|].
  - destruct (n <? n')%N; cbn; [intuition congruence|]. rewrite IH. intuition congruence.
  - cbn. intuition congruence.
  - cbn. rewrite IH. intuition congruence.
Qed.

Lemma keys_define {A : Type} (k x : String.string) (v : A) (o : object A) :
  In k (keys (define x v o)) <-> k = x \/ In k (keys o).
Proof.
  unfold define. destruct (lookup x o) eqn:Hl.
  - rewrite keys_replace. split; [auto|]. intros [->|H]; [|exact H].
    apply lookup_In. congruence.
  - apply keys_insert_key.
Qed.

Lemma keys_fold_define {A : Type} (k : String.string) (l acc : object A) :
  In k (keys (fold_left (fun o kv => define (fst kv) (snd kv) o) l acc)) <->
  In k (keys l) \/ In k (keys acc).
Proof.
  revert acc. induction l as [|[x v] l IH]; intros acc; cbn [fold_left fst snd].
  - cbn. tauto.
  - rewrite IH, keys_define. cbn. intuition congruence.
Qed.

Lemma has_namesMap (ns : list String.string) (k : String.string) :
  has k (fold_left (fun xs x => define x true (spread xs [])) ns ([] : object bool)) =
  among ns k || inherited k.
Proof.
  assert (Hk : forall acc : object bool,
             In k (keys (fold_left (fun xs x => define x true (spread xs [])) ns acc)) <->
             In k ns \/ In k (keys acc)).
  { induction ns as [|x ns IH]; intros acc; cbn [fold_left]; [cbn; tauto|].
    rewrite IH, keys_define. unfold spread. cbn [fold_left].
    rewrite keys_fold_define. cbn. intuition congruence. }
  unfold has.
  destruct (lookup k _) eqn:Hl.
  - assert (In k ns) as Hin.
    { assert (lookup k (fold_left (fun xs x => define x true (spread xs [])) ns []) <> None)
        as H by congruence.
      apply lookup_In, Hk in H. destruct H as [H|[]]. exact H. }
    apply among_In in Hin. now rewrite Hin.
  - apply lookup_None in Hl. rewrite Hk in Hl.
    assert (among ns k = false) as -> by (apply among_false; tauto). reflexivity.
Qed.

Lemma lookup_member {A : Type} (pre suff : object A) (k : String.string) (v : A) :
  NoDup (keys (pre ++ (k, v) :: suff)) ->
  lookup k (pre ++ (k, v) :: suff) = Some v.
Proof.
  intros Hnd. rewrite lookup_app.
  assert (lookup k pre = None) as ->.
  { apply lookup_None. intros Hin. rewrite keys_app in Hnd. cbn in Hnd.
    apply NoDup_remove_2 in Hnd. apply Hnd. apply in_or_app. now left. }
  cbn. now rewrite String.eqb_refl.
Qed.

Lemma drop_fold (ns : list String.string) (has_ : String.string -> bool)
    (pre suff : object (@member Column)) :
  plain_object (pre ++ suff) ->
  let kept k := negb (has_ k) in
  fold_left (fun data name =>
               if negb (has_ name)
               then match read (pre ++ suff) name with
                    | Some v => assign name v data
                    | None => data
                    end
               else data)
            (keys suff) (filter (fun kv => kept (fst kv)) pre) =
  filter (fun kv => kept (fst kv)) (pre ++ suff).
Proof.
  intros Hp kept. revert pre Hp. induction suff as [|[k v] suff IH]; intros pre Hp.
  - cbn. now rewrite app_nil_r.
  - cbn [keys map fst fold_left]. fold (keys suff).
    destruct Hp as [Hnd Hord].
    assert (Hpre : pre ++ (k, v) :: suff = (pre ++ [(k, v)]) ++ suff)
      by (now rewrite <- app_assoc).
    assert (Hk : ordinary k).
    { rewrite Forall_forall in Hord. apply Hord. rewrite keys_app. cbn.
      apply in_or_app. right. now left. }
    assert (Hnin : ~ In k (keys pre)).
    { rewrite keys_app in Hnd. cbn in Hnd. apply NoDup_remove_2 in Hnd.
      intros Hin. apply Hnd. apply in_or_app. now left. }
    unfold read. rewrite (lookup_member pre suff k v Hnd).
    specialize (IH (pre ++ [(k, v)])). rewrite <- Hpre in IH.
    rewrite <- (IH (conj Hnd Hord)). f_equal.
    rewrite filter_app. cbn [filter fst]. unfold kept.
    destruct (negb (has_ k)).
    + apply assign_fresh; [exact Hk|].
      intros Hin. apply Hnin.
      rewrite (keys_filter (fun k => negb (has_ k))) in Hin.
      now apply filter_In in Hin.
    + now rewrite app_nil_r.
Qed.

Lemma fold_left_pointwise {A B : Type} (f g : A -> B -> A) (l : list B) (i : A) :
  (forall a b, f a b = g a b) -> fold_left f l i = fold_left g l i.
Proof.
  intros H. revert i. induction l as [|b l IH]; intros i; cbn; [reflexivity|].
  now rewrite H, IH.
Qed.

Lemma dropColumns_eq (a : t Column) (ns : list String.string) :
  plain_object (_data a) ->
  dropColumns column_length a ns =
  new column_length
    (filter (fun kv => negb (among ns (fst kv) || inherited (fst kv))) (_data a)).
Proof.
  intros Hp. unfold dropColumns, names. f_equal.
  pose proof (drop_fold ns (fun k => among ns k || inherited k) [] (_data a) Hp) as H.
  cbn [app filter] in H. rewrite <- H.
  apply fold_left_pointwise. intros data name. now rewrite has_namesMap.
Qed.

Lemma values_filter_In {A : Type} (p : String.string * A -> bool) (o : object A) (v : A) :
  In v (values (filter p o)) -> In v (values o).
Proof.
  unfold values. rewrite !in_map_iff. intros ((k & v') & Hv & Hin).
  apply filter_In in Hin as [Hin _]. now exists (k, v').
Qed.

(** X14.  On an accessor that the constructor returned from an object
    whose names are neither array indices nor [__proto__],
    [dropColumns(names)] does not throw; the result keeps, in their order
    and with their columns, the names that are not listed, except those
    that are a property of [Object.prototype], which are always dropped
    because the exclusion is tested with [in]. *)
Theorem dropColumns_filters
    (data : object (@member Column)) (a : t Column) (ns : list String.string) :
  plain_object data ->
  new column_length data = Some a ->
  let kept k := negb (among ns k || inherited k) in
  exists b,
    dropColumns column_length a ns = Some b /\
    _data b = filter (fun kv => kept (fst kv)) (_data a) /\
    names b = filter kept (names a).
Proof.
  intros Hp Hnew kept.
  pose proof (new_lengths data a Hnew) as Hlen.
  apply new_Some in Hnew. subst a. cbn [_data].
  eexists. split; [|split].
  - rewrite dropColumns_eq by exact Hp. cbn [_data].
    apply new_succeeds. intros m1 m2 H1 H2.
    apply Hlen; eapply values_filter_In; eassumption.
  - reflexivity.
  - unfold names. cbn [_data]. apply (keys_filter kept).
Qed.

(** ** Selecting columns *)

Lemma lookup_Some_In {A : Type} (k : String.string) (v : A) (o : object A) :
  lookup k o = Some v -> In (k, v) o.
Proof.
  induction o as [|[k0 v0] o IH]; cbn; [discriminate|].
  destruct (String.eqb_spec k k0) as [->|_].
  - intros [= ->]. now left.
  - intros H. right. now apply IH.
Qed.

Lemma select_fold (data : object (@member Column)) (ns : list String.string)
    (acc : object (@member Column)) :
  Forall ordinary ns ->
  (forall n, In n ns -> inherited n = true -> In n (keys data)) ->
  (forall k v, In (k, v) acc -> lookup k data = Some v) ->
  let res := fold_left (fun data_ name =>
                          match read data name with
                          | Some v => assign name v data_
                          | None => data_
                          end) ns acc in
  keys res = firsts_from (keys acc) (filter (among (keys data)) ns) /\
  (forall k v, In (k, v) res -> lookup k data = Some v).
Proof.
  revert acc. induction ns as [|n ns IH]; intros acc Hord Hinh Hacc res.
  - cbn in res. subst res. cbn. auto.
  - inversion Hord as [|? ? Hn Hord']; subst.
    assert (Hinh' : forall n0, In n0 ns -> inherited n0 = true -> In n0 (keys data))
      by (intros n0 H; apply Hinh; now right).
    cbn [fold_left] in res. cbn [filter].
    unfold read in res. destruct (lookup n data) as [v|] eqn:Hl.
    + (* a column: assigned *)
      assert (among (keys data) n = true) as ->
        by (apply among_In, lookup_In; congruence).
      unfold firsts_from. cbn [fold_left]. fold (firsts_from (if among (keys acc) n
        then keys acc else keys acc ++ [n]) (filter (among (keys data)) ns)).
      destruct Hn as [Hidx Hproto].
      assert (Hassign : assign n v acc =
                        if among (keys acc) n then acc else acc ++ [(n, v)]).
      { unfold assign. destruct (String.eqb_spec n proto_key); [contradiction|].
        unfold define. destruct (lookup n acc) as [v'|] eqn:Hla.
        - assert (among (keys acc) n = true) as ->
            by (apply among_In, lookup_In; congruence).
          apply replace_same.
          pose proof (Hacc _ _ (lookup_Some_In _ _ _ Hla)) as Hd. congruence.
        - assert (among (keys acc) n = false) as ->
            by (apply among_false; now apply lookup_None).
          now apply insert_key_ordinary. }
      subst res. rewrite Hassign.
      destruct (among (keys acc) n) eqn:Ham.
      * apply IH; auto.
      * replace (keys acc ++ [n]) with (keys (acc ++ [(n, v)])) by (now rewrite keys_app).
        apply IH; auto.
        intros k0 v0 Hin. apply in_app_or in Hin as [Hin|[[= <- <-]|[]]]; auto.
    + (* no column *)
      assert (among (keys data) n = false) as Hnot
        by (apply among_false; now apply lookup_None).
      rewrite Hnot.
      destruct (inherited n) eqn:Hi.
      * exfalso. apply among_false in Hnot. apply Hnot. apply Hinh; [now left|exact Hi].
      * subst res. apply IH; auto.
Qed.

(** X15.  When neither the names of the columns nor the requested names
    are array indices or [__proto__], and the requested names that are no
    column are not properties of [Object.prototype], then on an accessor
    that the constructor returned [selectByColumnNames(names)] does not
    throw: the result has the requested names that are columns, each once,
    in the order in which they are first requested, with their columns; a
    requested name that is no column is skipped without an error.  (Names
    that are array indices come first and in ascending order in
    [Object.keys], whatever the order of the request.) *)
Theorem selectByColumnNames_keeps_request_order
    (data : object (@member Column)) (a : t Column) (ns : list String.string) :
  plain_object data ->
  new column_length data = Some a ->
  Forall ordinary ns ->
  (forall n, In n ns -> inherited n = true -> In n (names a)) ->
  exists b,
    selectByColumnNames column_length a ns = Some b /\
    names b = firsts (filter (among (names a)) ns) /\
    forall k, In k (names b) -> lookup k (_data b) = lookup k (_data a).
Proof.
  intros Hp Hnew Hord Hinh.
  pose proof (new_lengths data a Hnew) as Hlen.
  apply new_Some in Hnew. subst a. unfold names in *. cbn [_data] in *.
  destruct (select_fold data ns [] Hord Hinh ltac:(intros k v [])) as [Hkeys Hvals].
  match type of Hkeys with keys ?r = _ => set (res := r) in * end.
  eexists. split; [|split].
  - unfold selectByColumnNames. cbn [_data]. fold res.
    apply new_succeeds. intros m1 m2 H1 H2.
    assert (Hsub : forall m, In m (values res) -> In m (values data)).
    { intros m Hm. unfold values in *. apply in_map_iff in Hm as ((k & v) & Hv & Hin).
      cbn in Hv. subst v. apply Hvals, lookup_Some_In in Hin.
      now apply (in_map snd) in Hin. }
    apply Hlen; now apply Hsub.
  - cbn [_data]. exact Hkeys.
  - cbn [_data]. intros k Hk.
    destruct (lookup k res) as [v|] eqn:Hl.
    + symmetry. now apply Hvals, lookup_Some_In.
    + exfalso. apply lookup_None in Hl. contradiction.
Qed.

(** X16.  A name that is a property of [Object.prototype] other than
    [__proto__] and that is no column is not skipped by
    [selectByColumnNames]: the property read finds the inherited member,
    and the result is an accessor whose only entry is that member. *)
Theorem selectByColumnNames_takes_inherited_member (a : t Column) (n : String.string) :
  inherited n = true -> n <> proto_key -> ~ In n (names a) ->
  selectByColumnNames column_length a [n] =
  Some (mk [(n, Inherited n)] [(n, 0%nat)]).
Proof.
  intros Hi Hp Hn. unfold selectByColumnNames, names in *. cbn [fold_left].
  unfold read. apply lookup_None in Hn. rewrite Hn, Hi.
  unfold assign. destruct (String.eqb_spec n proto_key); [contradiction|].
  unfold define. cbn [lookup insert_key].
  unfold new. cbn [values map snd forallb keys fst set_labels].
  assert (loosely_equal (member_length column_length (Inherited n))
            (member_length column_length (Inherited n)) = true) as ->
    by (now apply loosely_equal_eq).
  reflexivity.
Qed.

(** ** Adding and dropping *)

Lemma filter_none {A : Type} (p : A -> bool) (l : list A) :
  (forall x, In x l -> p x = false) -> filter p l = [].
Proof.
  induction l as [|x l IH]; intros H; [reflexivity|]. cbn.
  rewrite (H x (or_introl eq_refl)). apply IH. intros y Hy. apply H. now right.
Qed.

(** X17.  Columns that are added under new names and then dropped by these
    names leave the accessor as it was: when [addColumns(data)] returns,
    dropping the names of [data] from its result gives back the accessor,
    provided no column of the accessor is named like a property of
    [Object.prototype] and no name of the accessor or of [data] is an array
    index or [__proto__]. *)
Theorem dropColumns_undoes_addColumns
    (data0 data : object (@member Column)) (a b : t Column) :
  plain_object data0 -> plain_object data ->
  new column_length data0 = Some a ->
  (forall k, In k (keys data) -> ~ In k (names a)) ->
  (forall k, In k (names a) -> inherited k = false) ->
  addColumns column_length a data = Some b ->
  dropColumns column_length b (keys data) = Some a.
Proof.
  intros Hp0 Hp Hnew Hdisj Hinh Hadd.
  pose proof Hnew as Ha. apply new_Some in Ha.
  assert (Hd0 : _data a = data0) by (now subst a).
  unfold names in *. rewrite Hd0 in *.
  unfold addColumns in Hadd. rewrite Hd0, spread_plain in Hadd by assumption.
  assert (Hov : overridden data0 data = data0).
  { unfold overridden. rewrite <- (map_id data0) at 2. apply map_ext_in.
    intros [k v] Hin. cbn [fst].
    assert (lookup k data = None) as ->; [|reflexivity].
    apply lookup_None. intros Hk. apply (Hdisj k Hk).
    now apply (in_map fst) in Hin. }
  assert (Had : added data0 data = data).
  { unfold added. apply forallb_filter_id. apply forallb_forall. intros [k v] Hin.
    cbn [fst]. apply negb_true_iff, among_false. apply Hdisj.
    now apply (in_map fst) in Hin. }
  rewrite Hov, Had in Hadd. apply new_Some in Hadd.
  assert (Hpb : plain_object (_data b)).
  { subst b. cbn [_data]. destruct Hp0 as [Hn0 Ho0], Hp as [Hn1 Ho1].
    split; rewrite keys_app.
    - apply NoDup_app; auto. intros k H0 H1. exact (Hdisj k H1 H0).
    - apply Forall_app; auto. }
  rewrite dropColumns_eq by exact Hpb. subst b. cbn [_data].
  rewrite filter_app.
  assert (filter (fun kv => negb (among (keys data) (fst kv) || inherited (fst kv))) data0
          = data0) as ->.
  { apply forallb_filter_id. apply forallb_forall. intros [k v] Hin. cbn [fst].
    apply (in_map fst) in Hin. cbn [fst] in Hin.
    rewrite (Hinh k Hin), orb_false_r. apply negb_true_iff, among_false.
    intros Hk. exact (Hdisj k Hk Hin). }
  assert (filter (fun kv => negb (among (keys data) (fst kv) || inherited (fst kv))) data
          = []) as ->.
  { apply filter_none. intros [k v] Hin. cbn [fst].
    apply (in_map fst) in Hin. cbn [fst] in Hin.
    apply among_In in Hin. unfold keys. now rewrite Hin. }
  rewrite app_nil_r. exact Hnew.
Qed.

End ColumnAccessorFacts.

(** * Instances *)

Lemma four_shorts_settled : settled eight_bytes four_shorts.
Proof. repeat split; cbn; lia. Defined.

Lemma fill_sets_the_window_witness :
  exists w' r',
    fill four_shorts 7 (Some 1) (Some (-1)) eight_bytes = Some (w', four_shorts) /\
    toArray four_shorts w' = Some (w', r') /\
    ta_get r' 0 = Some 1 /\ ta_get r' 1 = Some 7 /\ ta_get r' 2 = Some 7 /\
    ta_get r' 3 = Some 4.
Proof.
  destruct (fill_sets_the_window four_shorts 7 (Some 1) (Some (-1)) eight_bytes
              four_shorts_settled) as (w' & r & r' & Hf & Hr & Hr' & Hel).
  exists w', r'. split; [exact Hf|]. split; [exact Hr'|].
  assert (r = mk_typed_array Int16Array (map byte_of_Z [1; 0; 2; 0; 3; 0; 4; 0])) as Er
    by (vm_compute in Hr; now injection Hr as <-).
  pose proof (Hel 0 ltac:(cbn; lia)) as H0. pose proof (Hel 1 ltac:(cbn; lia)) as H1.
  pose proof (Hel 2 ltac:(cbn; lia)) as H2. pose proof (Hel 3 ltac:(cbn; lia)) as H3.
  rewrite Er in H0, H3. repeat split; assumption.
Defined.

Lemma set_writes_values_that_fit_witness :
  exists w' r',
    MemoryView.set four_shorts (SIterable [-1; 9]) (Some (-2)) eight_bytes = Some (w', tt) /\
    toArray four_shorts w' = Some (w', r') /\
    ta_get r' 2 = Some (-1) /\ ta_get r' 3 = Some 9.
Proof.
  destruct (set_writes_values_that_fit four_shorts [-1; 9] (Some (-2)) eight_bytes
              four_shorts_settled ltac:(cbn; lia))
    as (w' & r & r' & Hs & Hr & Hr' & Hel).
  exists w', r'. split; [exact Hs|]. split; [exact Hr'|].
  split; [exact (Hel 2 ltac:(cbn; lia))|exact (Hel 3 ltac:(cbn; lia))].
Defined.

Lemma copyInto_ArrayBuffer_copies_prefix_witness :
  copyInto four_shorts (TArrayBuffer (repeat x00 3)) (Some 2) eight_bytes =
  Some (eight_bytes, TArrayBuffer (map byte_of_Z [1; 0; 2])).
Proof.
  exact (proj1 (copyInto_ArrayBuffer_copies_prefix four_shorts (repeat x00 3) (Some 2)
                  eight_bytes four_shorts_settled)).
Defined.

Lemma copyInto_typed_array_that_fits_witness :
  copyInto four_shorts (TTypedArray (mk_typed_array Int16Array (repeat x00 4))) (Some 1)
    eight_bytes =
  Some (eight_bytes,
        TTypedArray (mk_typed_array Int16Array (map byte_of_Z [2; 0; 3; 0]))).
Proof.
  exact (copyInto_typed_array_that_fits four_shorts
           (mk_typed_array Int16Array (repeat x00 4)) (Some 1) eight_bytes
           four_shorts_settled ltac:(cbn; lia)).
Defined.

Lemma subarray_of_subarray_witness :
  (u <- subarray four_shorts (Some 1) None ;; subarray u (Some (-2)) None) eight_bytes =
  subarray four_shorts (Some 2) (Some 4) eight_bytes.
Proof.
  exact (subarray_of_subarray four_shorts (Some 1) None (Some (-2)) None eight_bytes
           ltac:(cbn; lia) ltac:(cbn; lia)).
Defined.

Lemma indexed_write_changes_one_element_witness :
  exists w1 w2 w3,
    set_ (Index 1) 9 four_shorts eight_bytes = Some (w1, (four_shorts, true)) /\
    get (Index 2) four_shorts eight_bytes = Some (w2, (four_shorts, Element 3)) /\
    get (Index 2) four_shorts w1 = Some (w3, (four_shorts, Element 3)).
Proof.
  destruct (indexed_write_changes_one_element four_shorts 1 2 9 eight_bytes
              four_shorts_settled eq_refl ltac:(cbn; lia) ltac:(cbn; lia))
    as (w1 & w2 & w3 & y0 & y1 & Hset & Hg0 & Hg1 & Hy).
  cbn in Hy. subst y1.
  assert (y0 = 3) as -> by (vm_compute in Hg0; now injection Hg0 as _ <-).
  exists w1, w2, w3. auto.
Defined.

Lemma toArray_agrees_with_get_witness :
  exists r w' y,
    toArray four_shorts eight_bytes = Some (eight_bytes, r) /\
    get (Index 3) four_shorts eight_bytes = Some (w', (four_shorts, Element y)) /\
    ta_get r 3 = Some y.
Proof.
  exact (toArray_agrees_with_get four_shorts 3 eight_bytes four_shorts_settled eq_refl
           ltac:(cbn; lia)).
Defined.

Lemma subarray_commutes_with_toArray_witness :
  exists u r1 r2,
    subarray four_shorts (Some (-3)) (Some 3) eight_bytes = Some (eight_bytes, u) /\
    toArray u eight_bytes = Some (eight_bytes, r1) /\
    toArray four_shorts eight_bytes = Some (eight_bytes, r2) /\
    r1 = ta_slice r2 (Some (-3)) (Some 3).
Proof.
  exact (subarray_commutes_with_toArray four_shorts (Some (-3)) (Some 3) eight_bytes
           four_shorts_settled).
Defined.

Lemma ArrayBuffer_round_trip_witness :
  exists w1 v,
    new Int32Array (SArrayBuffer (map byte_of_Z [1; 2; 3; 4])) None initial_world =
      Some (w1, v) /\
    length v = 1 /\
    copyInto v (TArrayBuffer (repeat x00 4)) None w1 =
      Some (w1, TArrayBuffer (map byte_of_Z [1; 2; 3; 4])).
Proof.
  exact (ArrayBuffer_round_trip Int32Array (map byte_of_Z [1; 2; 3; 4]) (repeat x00 4)
           initial_world eq_refl eq_refl).
Defined.

(** ** Instances for the column accessor *)

Lemma abc_plain : plain_object ColumnAccessor.abc.
Proof.
  split.
  - repeat constructor; cbn; intuition discriminate.
  - repeat constructor; try reflexivity; discriminate.
Defined.

Lemma de_plain : plain_object ColumnAccessor.de.
Proof.
  split.
  - repeat constructor; cbn; intuition discriminate.
  - repeat constructor; try reflexivity; discriminate.
Defined.

Lemma b_again_plain : plain_object ColumnAccessor.b_again.
Proof.
  split.
  - repeat constructor; cbn; intuition discriminate.
  - repeat constructor; try reflexivity; discriminate.
Defined.

Section ColumnAccessorInstances.

Import ColumnAccessor.
Import String.
Local Open Scope string_scope.

Lemma abc_constructed : new (fun n : Z => n) abc = Some abc_accessor.
Proof. reflexivity. Defined.

Lemma index_is_position_in_names_witness :
  columnNameToColumnIndex abc_accessor "b" = Some 1%nat /\
  ColumnAccessor.length abc_accessor = 3%nat.
Proof.
  destruct (index_is_position_in_names Z (fun n => n) abc abc_accessor "b" 1%nat
              (proj1 abc_plain) abc_constructed) as (H1 & _ & H3).
  split; [apply H1; reflexivity | rewrite H3; reflexivity].
Defined.

Lemma get_reads_the_indexed_column_witness :
  ColumnAccessor.get abc_accessor "b" = Some (Some (Col 3)) /\
  ColumnAccessor.get abc_accessor "valueOf" = Some (Some (Inherited "valueOf")) /\
  ColumnAccessor.get abc_accessor "zz" = None.
Proof.
  pose proof (get_reads_the_indexed_column Z (fun n => n) abc abc_accessor "b"
                (proj1 abc_plain) abc_constructed) as Hb.
  pose proof (get_reads_the_indexed_column Z (fun n => n) abc abc_accessor "valueOf"
                (proj1 abc_plain) abc_constructed) as Hv.
  pose proof (get_reads_the_indexed_column Z (fun n => n) abc abc_accessor "zz"
                (proj1 abc_plain) abc_constructed) as Hz.
  change (columnNameToColumnIndex abc_accessor "b") with (Some 1%nat) in Hb.
  change (columnNameToColumnIndex abc_accessor "valueOf") with (@None nat) in Hv.
  change (columnNameToColumnIndex abc_accessor "zz") with (@None nat) in Hz.
  cbv iota in Hb, Hv, Hz.
  destruct Hb as (c & Hc & Hg).
  change (nth_error (columns abc_accessor) 1) with (Some (@Col Z 3)) in Hc.
  injection Hc as <-.
  split; [exact Hg | split; [exact Hv | exact Hz]].
Defined.

Lemma addColumns_merges_witness :
  exists b,
    addColumns (fun n : Z => n) abc_accessor b_again = Some b /\
    names b = ["a"; "b"; "c"; "d"].
Proof.
  destruct (addColumns_merges Z (fun n => n) abc_accessor b_again abc_plain b_again_plain)
    as (Hadd & Hkeys & _).
  eexists. split.
  - rewrite Hadd. reflexivity.
  - exact Hkeys.
Defined.

Lemma dropColumns_filters_witness :
  exists b,
    dropColumns (fun n : Z => n) abc_accessor c_zz_a_c = Some b /\
    names b = ["b"].
Proof.
  destruct (dropColumns_filters Z (fun n => n) abc abc_accessor c_zz_a_c
              abc_plain abc_constructed) as (b & Hd & _ & Hn).
  exists b. split; [exact Hd | exact Hn].
Defined.

Lemma c_zz_a_c_ordinary : Forall ordinary c_zz_a_c.
Proof. repeat constructor; discriminate. Defined.

Lemma selectByColumnNames_keeps_request_order_witness :
  exists b,
    selectByColumnNames (fun n : Z => n) abc_accessor c_zz_a_c = Some b /\
    names b = ["c"; "a"].
Proof.
  destruct (selectByColumnNames_keeps_request_order Z (fun n => n) abc abc_accessor
              c_zz_a_c abc_plain abc_constructed c_zz_a_c_ordinary) as (b & Hs & Hn & _).
  - intros n [<- | [<- | [<- | [<- | []]]]]; cbn; intros; try discriminate; auto.
  - exists b. split; [exact Hs | exact Hn].
Defined.

Lemma selectByColumnNames_takes_inherited_member_witness :
  selectByColumnNames (fun n : Z => n) abc_accessor ["toString"] =
  Some (mk [("toString", Inherited "toString")] [("toString", 0%nat)]).
Proof.
  apply (selectByColumnNames_takes_inherited_member Z (fun n => n) abc_accessor "toString").
  - reflexivity.
  - discriminate.
  - cbn. intuition discriminate.
Defined.

Lemma dropColumns_undoes_addColumns_witness :
  dropColumns (fun n : Z => n) abcde_accessor (keys de) = Some abc_accessor.
Proof.
  apply (dropColumns_undoes_addColumns Z (fun n => n) abc de abc_accessor abcde_accessor
           abc_plain de_plain abc_constructed).
  - cbn. intros k [<- | [<- | []]]; intuition discriminate.
  - cbn. intros k [<- | [<- | [<- | []]]]; reflexivity.
  - reflexivity.
Defined.

End ColumnAccessorInstances.
